(** * moonraker/eventloop.py: the scheduler facade and the FlexTimer

    A shallow embedding of [EventLoop] and [FlexTimer] over a small
    operational model of the asyncio loop they delegate to.  The loop
    is single threaded: the only interleaving is between whole
    callbacks, and between the two halves of a coroutine that awaits.
    Loop time is a float in the source; the code only adds a delay to
    it and hands timestamps back to the loop, so timestamps are exact
    rationals here. *)

From Stdlib Require Import QArith Lqa.
From stdpp Require Import base option list gmap.
From Hammer Require Import Tactics.

Local Open Scope Q_scope.

(** ** Python values *)

(** A user callable, as far as the facade can observe it:
    [inspect.iscoroutinefunction] and, for a plain function, whether
    the value a call returns is an awaitable. *)
Record pyfunc := PyFunc {
  fn_id : nat;
  is_coroutine_function : bool;
  returns_awaitable : bool
}.

(** What the loop can be asked to call. *)
Inductive thunk :=
| Partial (f : pyfunc) (args : list nat)        (* functools.partial(callback, *args) *)
| AsyncCallback (f : pyfunc) (args : list nat)  (* self._async_callback, partial(callback, *args) *)
| ScheduleTask.                                 (* self._schedule_task of the FlexTimer *)

(** asyncio.TimerHandle *)
Record aio_handle := TimerHandle {
  when : Q;
  cancelled : bool;
  target : thunk
}.

(** Awaitable objects: coroutines made by calling a coroutine function,
    the coroutine of [FlexTimer._call_wrapper], and whatever awaitable
    a plain function hands back. *)
Inductive code :=
| UserCoro (f : pyfunc) (args : list nat)
| PlainResult (f : pyfunc) (args : list nat)
| CallWrapper.

Inductive status :=
| Created     (* constructed; nobody awaits it and no task wraps it *)
| Pending     (* wrapped in a task whose first step is queued *)
| Active      (* body entered and not yet left *)
| Finished
| Failed.     (* left by an exception, stored on the task *)

Record awaitable := Awaitable_ {
  body : code;
  state : status
}.

Inductive ready_item :=
| RCall (th : thunk)   (* a call_soon handle *)
| RStep (c : nat).     (* Task.__step of the task wrapping object c *)

(** What an observer of the process sees. *)
Inductive obs :=
| Executed (f : pyfunc) (args : list nat)   (* the body of f ran *)
| Invoked (t : Q)                           (* the timer callback was called with t *)
| TaskError (c : nat).                      (* a task ended with an unhandled exception *)

(** FlexTimer fields ([eventloop] and [callback] never change). *)
Record flex_timer := MkTimer {
  running : bool;
  timer_handle : option nat
}.

Record world := World {
  now : Q;                            (* aioloop.time() *)
  next_id : nat;                      (* identity of the next object made *)
  scheduled : gmap nat aio_handle;    (* aioloop._scheduled *)
  ready : list ready_item;            (* aioloop._ready *)
  objs : gmap nat awaitable;
  log : list obs;
  timer : flex_timer
}.

Definition set_now (t : Q) (w : world) : world :=
  World t (next_id w) (scheduled w) (ready w) (objs w) (log w) (timer w).
Definition set_next_id (n : nat) (w : world) : world :=
  World (now w) n (scheduled w) (ready w) (objs w) (log w) (timer w).
Definition set_scheduled (s : gmap nat aio_handle) (w : world) : world :=
  World (now w) (next_id w) s (ready w) (objs w) (log w) (timer w).
Definition set_ready (r : list ready_item) (w : world) : world :=
  World (now w) (next_id w) (scheduled w) r (objs w) (log w) (timer w).
Definition set_objs (o : gmap nat awaitable) (w : world) : world :=
  World (now w) (next_id w) (scheduled w) (ready w) o (log w) (timer w).
Definition emit (e : obs) (w : world) : world :=
  World (now w) (next_id w) (scheduled w) (ready w) (objs w) (log w ++ [e]) (timer w).
Definition set_timer (t : flex_timer) (w : world) : world :=
  World (now w) (next_id w) (scheduled w) (ready w) (objs w) (log w) t.

Definition set_running (b : bool) (w : world) : world :=
  set_timer (MkTimer b (timer_handle (timer w))) w.
Definition set_timer_handle (h : option nat) (w : world) : world :=
  set_timer (MkTimer (running (timer w)) h) w.

Definition init_world : world :=
  World 0 0%nat ∅ [] ∅ [] (MkTimer false None).

(** ** The asyncio loop primitives the source calls *)

Module Aio.

(** loop.call_at(when, callback) *)
Definition call_at (t : Q) (th : thunk) (w : world) : nat * world :=
  let h := next_id w in
  (h, set_next_id (S h) (set_scheduled (<[h := TimerHandle t false th]> (scheduled w)) w)).

(** loop.call_later(delay, callback) *)
Definition call_later (delay : Q) (th : thunk) (w : world) : nat * world :=
  call_at (now w + delay) th w.

(** loop.call_soon(callback) *)
Definition call_soon (th : thunk) (w : world) : world :=
  set_ready (ready w ++ [RCall th]) w.

(** TimerHandle.cancel() *)
Definition cancel (h : nat) (w : world) : world :=
  set_scheduled (alter (fun e => TimerHandle (when e) true (target e)) h (scheduled w)) w.

(** A fresh awaitable object. *)
Definition new_object (c : code) (w : world) : nat * world :=
  let i := next_id w in
  (i, set_next_id (S i) (set_objs (<[i := Awaitable_ c Created]> (objs w)) w)).

Definition set_state (c : nat) (s : status) (w : world) : world :=
  set_objs (alter (fun a => Awaitable_ (body a) s) c (objs w)) w.

(** loop.create_task(coro): wrap it and queue the task's first step. *)
Definition create_task (c : nat) (w : world) : world :=
  set_ready (ready w ++ [RStep c]) (set_state c Pending w).

(** Calling [f] on [args]: a coroutine function only builds the coroutine object;
    a plain function runs its body and returns. *)
Definition call_fn (f : pyfunc) (args : list nat) (w : world) : option nat * world :=
  if is_coroutine_function f then
    let '(c, w1) := new_object (UserCoro f args) w in (Some c, w1)
  else
    let w1 := emit (Executed f args) w in
    if returns_awaitable f then
      let '(c, w2) := new_object (PlainResult f args) w1 in (Some c, w2)
    else (None, w1).

End Aio.

(** ** class EventLoop *)

Module EventLoop.
Import Aio.

Definition get_loop_time (w : world) : Q := now w.

Definition register_callback (callback : pyfunc) (args : list nat) (w : world)
  : unit * world :=
  if is_coroutine_function callback then
    match call_fn callback args w with
    | (Some c, w1) => (tt, create_task c w1)
    | (None, w1) => (tt, w1)  (* not reached: a coroutine function returns a coroutine *)
    end
  else (tt, call_soon (Partial callback args) w).

Definition delay_callback (delay : Q) (callback : pyfunc) (args : list nat) (w : world)
  : nat * world :=
  if is_coroutine_function callback then
    call_later delay (AsyncCallback callback args) w
  else
    call_later delay (Partial callback args) w.

Definition _async_callback (callback : pyfunc) (args : list nat) (w : world) : world :=
  match call_fn callback args w with
  | (Some c, w1) => create_task c w1
  | (None, w1) => w1
  end.

End EventLoop.

(** ** class FlexTimer *)

Module FlexTimer.
Import Aio.

Definition start (delay : Q) (w : world) : world :=
  if running (timer w) then w
  else
    let w1 := set_running true w in
    let call_time := EventLoop.get_loop_time w1 + delay in
    let '(h, w2) := call_at call_time ScheduleTask w1 in
    set_timer_handle (Some h) w2.

Definition stop (w : world) : world :=
  if negb (running (timer w)) then w
  else
    let w1 := set_running false w in
    match timer_handle (timer w1) with
    | Some h => set_timer_handle None (cancel h w1)
    | None => w1
    end.

Definition _schedule_task (w : world) : world :=
  let w1 := set_timer_handle None w in
  let '(c, w2) := new_object CallWrapper w1 in
  create_task c w2.

Definition is_running (w : world) : bool := running (timer w).

End FlexTimer.

(** ** User code

    Code that runs on the loop (a callback body, the timer callback, a
    signal handler) reaches the timer and the facade through their
    public methods only. *)

Inductive api :=
| Start (delay : Q)                                  (* timer.start(delay) *)
| Stop                                               (* timer.stop() *)
| Register (f : pyfunc) (args : list nat)            (* eventloop.register_callback(f, args) *)
| Delay (delay : Q) (f : pyfunc) (args : list nat)   (* eventloop.delay_callback(delay, f, args) *)
| Cancel (h : nat).                                  (* handle.cancel(), handle from delay_callback *)

Definition is_timer_thunk (th : thunk) : bool :=
  match th with ScheduleTask => true | _ => false end.

(** The handle a FlexTimer keeps is private to it: user code holds
    only the handles delay_callback returned. *)
Definition do_api (a : api) (w : world) : option world :=
  match a with
  | Start delay => Some (FlexTimer.start delay w)
  | Stop => Some (FlexTimer.stop w)
  | Register f args => Some (snd (EventLoop.register_callback f args w))
  | Delay delay f args => Some (snd (EventLoop.delay_callback delay f args w))
  | Cancel h =>
      match scheduled w !! h with
      | Some e => if is_timer_thunk (target e) then None else Some (Aio.cancel h w)
      | None => Some w
      end
  end.

Fixpoint run_acts (acts : list api) (w : world) : option world :=
  match acts with
  | [] => Some w
  | a :: rest => match do_api a w with Some w1 => run_acts rest w1 | None => None end
  end.

(** How an awaited computation ends. *)
Inductive completion :=
| Value (t : Q)
| Exception.

(** What one call of the timer callback does: the methods its body
    calls, then a float, an exception or an awaitable. *)
Inductive outcome :=
| Done (r : completion)
| Awaits.

Record behaviour := Behaviour {
  acts : list api;
  result : outcome
}.

(** ** FlexTimer._call_wrapper

    The coroutine has one suspension point, [await ret].  [c] is the
    object the task wraps. *)

Module CallWrapper.
Import Aio.

(** if self.running: self.timer_handle = self.eventloop.call_at(ret, self._schedule_task) *)
Definition tail (ret : Q) (w : world) : world :=
  if running (timer w) then
    let '(h, w1) := call_at ret ScheduleTask w in
    set_timer_handle (Some h) w1
  else w.

(** From [ret] on; an exception leaves the coroutine at once. *)
Definition finish (c : nat) (r : completion) (w : world) : world :=
  match r with
  | Value ret => set_state c Finished (tail ret w)
  | Exception => emit (TaskError c) (set_state c Failed w)
  end.

(** The world in which the body of the callback starts to run. *)
Definition invoke (c : nat) (w : world) : world :=
  emit (Invoked (EventLoop.get_loop_time w)) (set_state c Active w).

(** First step of the task, up to the end of the coroutine or to
    [await ret]. *)
Definition enter (c : nat) (b : behaviour) (w : world) : option world :=
  if negb (running (timer w)) then Some (set_state c Finished w)  (* return *)
  else
    (* ret = self.callback(self.eventloop.get_loop_time()) *)
    match run_acts (acts b) (invoke c w) with
    | Some w2 =>
        match result b with
        | Done r => Some (finish c r w2)
        | Awaits => Some w2               (* isinstance(ret, Awaitable): await ret *)
        end
    | None => None
    end.

End CallWrapper.

(** ** The loop

    One event is one callback run to its end (or to its await) by
    loop._run_once.  A due timer handle is moved to the ready queue
    and run from there unless it was cancelled on the way; [Fire]
    does both at once, and is enabled only if the handle is not
    cancelled when it runs.  The ready queue is first in, first out. *)

Inductive event :=
| Tick (t : Q)                   (* time passes *)
| Call (a : api)                 (* code running on the loop calls a method *)
| Fire (h : nat)                 (* a due timer handle is run *)
| RunReady (b : behaviour)       (* the head of the ready queue is run *)
| Resume (c : nat) (r : completion).  (* what c awaits completes *)

(** Handle._run: call the callback and drop what it returns. *)
Definition run_thunk (th : thunk) (w : world) : world :=
  match th with
  | Partial f args => snd (Aio.call_fn f args w)
  | AsyncCallback f args => EventLoop._async_callback f args w
  | ScheduleTask => FlexTimer._schedule_task w
  end.

Definition task_step (c : nat) (b : behaviour) (w : world) : option world :=
  match objs w !! c with
  | Some (Awaitable_ (UserCoro f args) Pending) =>
      Some (Aio.set_state c Finished (emit (Executed f args) w))
  | Some (Awaitable_ CallWrapper Pending) => CallWrapper.enter c b w
  | _ => None
  end.

Definition step (e : event) (w : world) : option world :=
  match e with
  | Tick t => if Qle_bool (now w) t then Some (set_now t w) else None
  | Call a => do_api a w
  | Fire h =>
      match scheduled w !! h with
      | Some e =>
          if cancelled e then None
          else if Qle_bool (when e) (now w)
          then Some (run_thunk (target e) (set_scheduled (delete h (scheduled w)) w))
          else None
      | None => None
      end
  | RunReady b =>
      match ready w with
      | RCall th :: q => Some (run_thunk th (set_ready q w))
      | RStep c :: q => task_step c b (set_ready q w)
      | [] => None
      end
  | Resume c r =>
      match objs w !! c with
      | Some (Awaitable_ CallWrapper Active) => Some (CallWrapper.finish c r w)
      | _ => None
      end
  end.

Fixpoint run (tr : list event) (w : world) : option world :=
  match tr with
  | [] => Some w
  | e :: rest => match step e w with Some w1 => run rest w1 | None => None end
  end.

(** The timestamps at which the timer callback was invoked. *)
Definition invocations (w : world) : list Q :=
  omap (fun o => match o with Invoked t => Some t | _ => None end) (log w).


(** ** Observations on a world *)

(** [h] is a handle of the timer that the loop still holds and will run. *)
Definition outstanding (w : world) (h : nat) : bool :=
  match scheduled w !! h with
  | Some e => is_timer_thunk (target e) && negb (cancelled e)
  | None => false
  end.

Definition task_state (w : world) (c : nat) : option status :=
  match objs w !! c with
  | Some (Awaitable_ CallWrapper s) => Some s
  | _ => None
  end.

(** The invocation task [c] exists and its body has not started. *)
Definition pending_task (w : world) (c : nat) : bool :=
  match task_state w c with Some Pending => true | _ => false end.

(** The invocation task [c] is inside the callback (or its await). *)
Definition in_callback (w : world) (c : nat) : bool :=
  match task_state w c with Some Active => true | _ => false end.

Definition is_live (a : awaitable) : bool :=
  match a with
  | Awaitable_ CallWrapper Pending | Awaitable_ CallWrapper Active => true
  | _ => false
  end.

Definition has_live_task (w : world) : bool :=
  existsb (fun p => is_live (snd p)) (map_to_list (objs w)).

(** Awaitables that exist and that nothing awaits or wraps. *)
Definition unawaited (w : world) (c : nat) : bool :=
  match objs w !! c with
  | Some a => match state a with Created => true | _ => false end
  | None => false
  end.

(** Identities are handed out in increasing order. *)
Definition fresh_ids (w : world) : Prop :=
  forall k, (next_id w <= k)%nat -> scheduled w !! k = None /\ objs w !! k = None.

(** ** Conditions on executions

    [ok_api a w] says that calling [a] in [w] is allowed, [ok_end r]
    that a callback may end with [r].  The conditions follow [step]:
    the calls of a callback body count where the body runs. *)

Fixpoint acts_ok (ok_api : api -> world -> Prop) (l : list api) (w : world) : Prop :=
  match l with
  | [] => True
  | a :: rest =>
      ok_api a w /\
      match do_api a w with Some w1 => acts_ok ok_api rest w1 | None => True end
  end.

Definition outcome_ok (ok_end : completion -> Prop) (o : outcome) : Prop :=
  match o with Done r => ok_end r | Awaits => True end.

Definition event_ok (ok_api : api -> world -> Prop) (ok_end : completion -> Prop)
    (e : event) (w : world) : Prop :=
  match e with
  | Call a => ok_api a w
  | RunReady b =>
      match ready w with
      | RStep c :: q =>
          pending_task w c = true -> running (timer w) = true ->
          acts_ok ok_api (acts b) (CallWrapper.invoke c (set_ready q w)) /\
          outcome_ok ok_end (result b)
      | _ => True
      end
  | Resume c r => ok_end r
  | _ => True
  end.

Fixpoint trace_ok (ok_api : api -> world -> Prop) (ok_end : completion -> Prop)
    (tr : list event) (w : world) : Prop :=
  match tr with
  | [] => True
  | e :: rest =>
      event_ok ok_api ok_end e w /\
      match step e w with Some w1 => trace_ok ok_api ok_end rest w1 | None => True end
  end.

Definition any_end (r : completion) : Prop := True.
Definition any_api (a : api) (w : world) : Prop := True.

(** start() on a stopped timer while an invocation task of the timer
    is queued or inside the callback re-arms a timer whose task will
    arm it as well. *)
Definition api_calm (a : api) (w : world) : Prop :=
  match a with
  | Start _ => running (timer w) = false -> has_live_task w = false
  | _ => True
  end.

Definition is_start (a : api) : bool := match a with Start _ => true | _ => false end.
Definition is_stop (a : api) : bool := match a with Stop => true | _ => false end.
Definition api_no_start (a : api) (w : world) : Prop := is_start a = false.
Definition api_no_stop (a : api) (w : world) : Prop := is_stop a = false.
Definition no_exception (r : completion) : Prop := r <> Exception.

(** No start() races with an invocation task. *)
Definition calm : list event -> world -> Prop := trace_ok api_calm any_end.
(** Nobody calls start(). *)
Definition no_start : list event -> world -> Prop := trace_ok api_no_start any_end.
(** Nobody calls stop(). *)
Definition no_stop : list event -> world -> Prop := trace_ok api_no_stop any_end.
(** No callback invocation ends with an exception. *)
Definition no_failure : list event -> world -> Prop := trace_ok any_api no_exception.

(** ** Invariants *)

(** What the timer's own field promises, in every execution. *)
Definition slot_inv (w : world) : Prop :=
  fresh_ids w /\
  (forall h, timer_handle (timer w) = Some h -> outstanding w h = true) /\
  (running (timer w) = false -> timer_handle (timer w) = None) /\
  RCall ScheduleTask ∉ ready w.

(** What holds as long as no start() races with an invocation task:
    the only handle of the timer that the loop holds is the one in the
    field, no handle is held while a task is queued or in the
    callback, and there is one such task at most. *)
Definition calm_inv (w : world) : Prop :=
  (forall h e, scheduled w !! h = Some e -> is_timer_thunk (target e) = true ->
      cancelled e = false -> timer_handle (timer w) = Some h) /\
  (forall c a, objs w !! c = Some a -> is_live a = true -> timer_handle (timer w) = None) /\
  (forall c1 c2 a1 a2, objs w !! c1 = Some a1 -> is_live a1 = true ->
      objs w !! c2 = Some a2 -> is_live a2 = true -> c1 = c2).

Definition owned_inv (w : world) : Prop := slot_inv w /\ calm_inv w.

(** A running timer has something ahead of it. *)
Definition armed_inv (w : world) : Prop :=
  running (timer w) = true ->
  timer_handle (timer w) <> None \/
  exists c a, objs w !! c = Some a /\ is_live a = true.

(** A timer that nothing will ever fire again. *)
Definition disabled (w : world) : Prop :=
  timer_handle (timer w) = None /\
  (forall h e, scheduled w !! h = Some e -> is_timer_thunk (target e) = true ->
      cancelled e = true) /\
  (forall c a, objs w !! c = Some a -> is_live a = false).

Definition armed_slot (w : world) : Prop := slot_inv w /\ armed_inv w.

(** Stopped, and the callback was invoked at [l] so far. *)
Definition stopped_at (l : list Q) (w : world) : Prop :=
  running (timer w) = false /\ invocations w = l.

(** Running but disabled, and the callback was invoked at [l] so far. *)
Definition dead_at (l : list Q) (w : world) : Prop :=
  disabled w /\ running (timer w) = true /\ invocations w = l.

(** The object [c] was constructed and nothing awaits or wraps it. *)
Definition leaked (c : nat) (b : code) (w : world) : Prop :=
  objs w !! c = Some (Awaitable_ b Created).

(** The handle [h] is spent or cancelled. *)
Definition dead_handle (h : nat) (w : world) : Prop :=
  (h < next_id w)%nat /\
  forall e, scheduled w !! h = Some e -> cancelled e = true.

(** The handle [h], while the loop holds it, is for [th] at [t]. *)
Definition handle_for (h : nat) (t : Q) (th : thunk) (w : world) : Prop :=
  (h < next_id w)%nat /\
  forall e, scheduled w !! h = Some e -> when e = t /\ target e = th.

(** ** The statements of the specification that the code does not meet *)

(** The world after [tr]; [w] itself when [tr] cannot run. *)
Definition exec (tr : list event) (w : world) : world := default w (run tr w).

(** The invariant of C2 in the words of the specification: one handle
    with the loop at most; a running timer has a pending handle or is
    inside a callback invocation; a stopped timer has no handle. *)
Definition handle_ownership (w : world) : Prop :=
  (forall h1 h2, outstanding w h1 = true -> outstanding w h2 = true -> h1 = h2) /\
  (running (timer w) = true ->
     timer_handle (timer w) <> None \/ exists c, in_callback w c = true) /\
  (running (timer w) = false -> timer_handle (timer w) = None).

(** In [w], the event [e] is the step in which the callback called by
    the invocation task [c] raises. *)
Definition raises (e : event) (c : nat) (w : world) : Prop :=
  match e with
  | RunReady b =>
      (exists q, ready w = RStep c :: q) /\ pending_task w c = true /\
      running (timer w) = true /\ result b = Done Exception
  | Resume c' r => c' = c /\ r = Exception /\ in_callback w c = true
  | _ => False
  end.

(** The world in which the exception (or the value) leaves the
    callback during the event [e] of task [c]: after the calls of the
    callback body for a callback that ends at once, [w] itself for one
    that ends after its await. *)
Definition at_end (e : event) (c : nat) (w : world) : option world :=
  match e with
  | RunReady b =>
      match ready w with
      | RStep _ :: q => run_acts (acts b) (CallWrapper.invoke c (set_ready q w))
      | _ => None
      end
  | Resume _ _ => Some w
  | _ => None
  end.

(** C8 in the words of the specification: after the step in which
    the callback raises, the timer is Running with no pending handle. *)
Definition left_armed_idle (w : world) : Prop :=
  running (timer w) = true /\ timer_handle (timer w) = None.

(** Three executions that the invariant of C2 does not survive: the
    dispatch has fired and its task has not started; the callback has
    raised; stop() and start() were called between the dispatch and
    the task. *)
Definition dispatched : list event :=
  [Call (Start 0); Fire 0%nat].

Definition failure : list event :=
  [Call (Start 0); Fire 0%nat; RunReady (Behaviour [] (Done Exception))].

Definition race : list event :=
  [Call (Start 0); Fire 0%nat; Call Stop; Call (Start 5);
   RunReady (Behaviour [] (Done (Value 1)))].

(** ** Conditions and invariants of the further properties *)

(** Before the loop time reaches [T] the callback cannot be invoked:
    no invocation task exists, and every dispatch of the timer that
    the loop holds is for [T] or later. *)
Definition not_before (T : Q) (w : world) : Prop :=
  T <= now w \/
  ((forall c a, objs w !! c = Some a -> is_live a = false) /\
   (forall h e, scheduled w !! h = Some e -> is_timer_thunk (target e) = true ->
      cancelled e = false -> T <= when e)).

(** The invocations after those of [l0] are at [T] or later. *)
Definition later_invocations (l0 : list Q) (T : Q) (w : world) : Prop :=
  exists l, invocations w = l0 ++ l /\ Forall (fun t => T <= t) l.

Definition timed_inv (l0 : list Q) (T : Q) (w : world) : Prop :=
  slot_inv w /\ not_before T w /\ later_invocations l0 T w.

(** In [w], the event [e] is the step in which the callback called by
    the invocation task [c] produces [ret]. *)
Definition returns (e : event) (c : nat) (ret : Q) (w : world) : Prop :=
  match e with
  | RunReady b =>
      (exists q, ready w = RStep c :: q) /\ pending_task w c = true /\
      running (timer w) = true /\ result b = Done (Value ret)
  | Resume c' r => c' = c /\ r = Value ret /\ in_callback w c = true
  | _ => False
  end.

Definition api_no_start_stop (a : api) (w : world) : Prop :=
  is_start a = false /\ is_stop a = false.

(** Nobody calls start() or stop(). *)
Definition hands_off : list event -> world -> Prop :=
  trace_ok api_no_start_stop any_end.

(** The running flag has the value [b]. *)
Definition flag_is (b : bool) (w : world) : Prop :=
  slot_inv w /\ running (timer w) = b.

(** A function the facade can take without losing an awaitable. *)
Definition tame_fn (f : pyfunc) : bool :=
  is_coroutine_function f || negb (returns_awaitable f).

Definition api_tame (a : api) (w : world) : Prop :=
  match a with
  | Register f _ | Delay _ f _ => tame_fn f = true
  | _ => True
  end.

Definition tame_thunk (th : thunk) : Prop :=
  match th with
  | Partial f _ => is_coroutine_function f = false /\ returns_awaitable f = false
  | _ => True
  end.

Definition tame_item (it : ready_item) : Prop :=
  match it with RCall th => tame_thunk th | RStep _ => True end.

(** Only tame functions are given to the facade. *)
Definition tame : list event -> world -> Prop := trace_ok api_tame any_end.

(** Every awaitable is awaited or wrapped in a task, and no callable
    that the loop holds will make one that is not. *)
Definition awaited_inv (w : world) : Prop :=
  (forall c a, objs w !! c = Some a -> state a <> Created) /\
  (forall h e, scheduled w !! h = Some e -> tame_thunk (target e)) /\
  Forall tame_item (ready w).

(** * Proofs *)

(** ** Tactics *)

Ltac unf :=
  unfold step, task_step, run_thunk, do_api,
    CallWrapper.enter, CallWrapper.invoke, CallWrapper.finish, CallWrapper.tail,
    FlexTimer.start, FlexTimer.stop, FlexTimer._schedule_task, FlexTimer.is_running,
    EventLoop.register_callback, EventLoop.delay_callback, EventLoop._async_callback,
    EventLoop.get_loop_time,
    Aio.call_fn, Aio.create_task, Aio.set_state, Aio.new_object, Aio.cancel,
    Aio.call_soon, Aio.call_later, Aio.call_at,
    set_timer_handle, set_running, set_timer, emit, set_objs, set_ready,
    set_scheduled, set_next_id, set_now in *.

Ltac open_world w :=
  destruct w as [? ? ? ? ? ? [? ?]]; simpl in *.

(** Case analysis on the keys of updated maps. *)
Ltac split_keys :=
  repeat match goal with
  | H : context [ <[?i := _]> _ !! ?j ] |- _ =>
      destruct (decide (i = j));
      [subst; rewrite lookup_insert_eq in H | rewrite (lookup_insert_ne _ i j) in H by done]
  | |- context [ <[?i := _]> _ !! ?j ] =>
      destruct (decide (i = j));
      [subst; rewrite lookup_insert_eq | rewrite (lookup_insert_ne _ i j) by done]
  | H : context [ delete ?i _ !! ?j ] |- _ =>
      destruct (decide (i = j));
      [subst; rewrite lookup_delete_eq in H | rewrite (lookup_delete_ne _ i j) in H by done]
  | |- context [ delete ?i _ !! ?j ] =>
      destruct (decide (i = j));
      [subst; rewrite lookup_delete_eq | rewrite (lookup_delete_ne _ i j) by done]
  | H : context [ alter _ ?i _ !! ?j ] |- _ =>
      destruct (decide (i = j));
      [subst; rewrite lookup_alter_eq in H | rewrite (lookup_alter_ne _ _ i j) in H by done]
  | |- context [ alter _ ?i _ !! ?j ] =>
      destruct (decide (i = j));
      [subst; rewrite lookup_alter_eq | rewrite (lookup_alter_ne _ _ i j) by done]
  end.

Ltac use_fresh :=
  match goal with
  | Hf : forall k, (?n <= k)%nat -> _ !! k = None /\ _ !! k = None |- _ =>
      let H1 := fresh "Hfs" in
      let H2 := fresh "Hfo" in
      pose proof (fun k (H : (n <= k)%nat) => proj1 (Hf k H)) as H1;
      pose proof (fun k (H : (n <= k)%nat) => proj2 (Hf k H)) as H2;
      clear Hf
  end.

Ltac rew_lookups :=
  repeat match goal with
  | H : forall h, Some ?x = Some h -> _ |- _ => specialize (H _ eq_refl)
  | H : forall k, (_ <= k)%nat -> ?m !! k = None |- context [ ?m !! ?j ] =>
      rewrite (H j) by lia; simpl
  | H : forall k, (_ <= k)%nat -> ?m !! k = None, H' : context [ ?m !! ?j ] |- _ =>
      rewrite (H j) in H' by lia; simpl in H'
  | H : ?m !! ?k = Some _, H' : context [ ?m !! ?k ] |- _ => rewrite H in H'; simpl in H'
  | H : ?m !! ?k = Some _ |- context [ ?m !! ?k ] => rewrite H; simpl
  | H : ?m !! ?k = None, H' : context [ ?m !! ?k ] |- _ => rewrite H in H'; simpl in H'
  | H : ?m !! ?k = None |- context [ ?m !! ?k ] => rewrite H; simpl
  | H : _ && _ = true |- _ => apply andb_true_iff in H as [? ?]
  | H : negb _ = true |- _ => apply negb_true_iff in H
  | H : negb _ = false |- _ => apply negb_false_iff in H
  end.

Ltac finish_map :=
  intros; simplify_eq; split_keys; simpl in *; simplify_eq;
  rew_lookups; simplify_eq; simpl in *;
  try done; try lia; try congruence;
  try (repeat case_match; simplify_eq; simpl in *; rew_lookups;
       try done; try congruence; eauto with lia; fail).

(** ** The tasks of the timer *)

Lemma has_live_task_true w :
  has_live_task w = true <-> exists c a, objs w !! c = Some a /\ is_live a = true.
Proof.
  unfold has_live_task. rewrite existsb_exists. split.
  - intros [[c a] [Hin Hl]]. exists c, a. split; [|done].
    apply elem_of_map_to_list. by apply list_elem_of_In.
  - intros (c & a & Hc & Hl). exists (c, a). split; [|done].
    apply list_elem_of_In. by apply elem_of_map_to_list.
Qed.

Lemma has_live_task_false w :
  has_live_task w = false <-> forall c a, objs w !! c = Some a -> is_live a = false.
Proof.
  split.
  - intros H c a Hc. destruct (is_live a) eqn:Hl; [|done].
    assert (has_live_task w = true) by (apply has_live_task_true; eauto). congruence.
  - intros H. destruct (has_live_task w) eqn:E; [|done].
    apply has_live_task_true in E as (c & a & Hc & Hl). rewrite (H c a Hc) in Hl. done.
Qed.

(** ** Objects are stable under the calls of user code *)

Lemma do_api_stable a w w' c x :
  do_api a w = Some w' -> fresh_ids w -> objs w !! c = Some x ->
  fresh_ids w' /\ objs w' !! c = Some x.
Proof.
  intros H Hf Hc. open_world w. unfold fresh_ids in *; simpl in *. use_fresh.
  destruct a; unf; simpl in *; repeat case_match; simplify_eq; simpl in *.
  all: split; [intros k Hk; split|]; finish_map.
Qed.

Lemma run_acts_stable l : forall w w' c x,
  run_acts l w = Some w' -> fresh_ids w -> objs w !! c = Some x ->
  fresh_ids w' /\ objs w' !! c = Some x.
Proof.
  induction l as [|a l IH]; simpl; intros w w' c x H Hf Hc.
  - by simplify_eq.
  - destruct (do_api a w) as [w1|] eqn:Ha; [|done].
    destruct (do_api_stable _ _ _ _ _ Ha Hf Hc) as [Hf1 Hc1]. eauto.
Qed.

(** ** Preservation along executions *)

Section Preservation.
Variable P : world -> Prop.
Variable ok_api : api -> world -> Prop.
Variable ok_end : completion -> Prop.

Hypothesis P_fresh : forall w, P w -> fresh_ids w.
Hypothesis P_tick : forall t w,
  P w -> Qle_bool (now w) t = true -> P (set_now t w).
Hypothesis P_api : forall a w w', P w -> ok_api a w -> do_api a w = Some w' -> P w'.
Hypothesis P_fire : forall h e w,
  P w -> scheduled w !! h = Some e -> cancelled e = false ->
  Qle_bool (when e) (now w) = true ->
  P (run_thunk (target e) (set_scheduled (delete h (scheduled w)) w)).
Hypothesis P_call : forall th q w,
  P w -> ready w = RCall th :: q -> P (run_thunk th (set_ready q w)).
Hypothesis P_coro : forall c f args q w,
  P w -> ready w = RStep c :: q ->
  objs w !! c = Some (Awaitable_ (UserCoro f args) Pending) ->
  P (Aio.set_state c Finished (emit (Executed f args) (set_ready q w))).
Hypothesis P_abort : forall c q w,
  P w -> ready w = RStep c :: q ->
  objs w !! c = Some (Awaitable_ CallWrapper Pending) ->
  running (timer w) = false ->
  P (Aio.set_state c Finished (set_ready q w)).
Hypothesis P_invoke : forall c q w,
  P w -> ready w = RStep c :: q ->
  objs w !! c = Some (Awaitable_ CallWrapper Pending) ->
  running (timer w) = true ->
  P (CallWrapper.invoke c (set_ready q w)).
Hypothesis P_finish : forall c r w,
  P w -> ok_end r -> objs w !! c = Some (Awaitable_ CallWrapper Active) ->
  P (CallWrapper.finish c r w).

Lemma acts_preserve l : forall w w',
  P w -> acts_ok ok_api l w -> run_acts l w = Some w' -> P w'.
Proof.
  induction l as [|a l IH]; simpl; intros w w' HP Hok H.
  - by simplify_eq.
  - destruct Hok as [Ha Hrest].
    destruct (do_api a w) as [w1|] eqn:E; [|done]. eauto.
Qed.

Lemma step_preserve e w w' :
  P w -> event_ok ok_api ok_end e w -> step e w = Some w' -> P w'.
Proof.
  intros HP Hok H. destruct e as [t|a|h|b|c r]; simpl in *.
  - case_match; simplify_eq. by apply P_tick.
  - eauto.
  - destruct (scheduled w !! h) as [e|] eqn:Eh; [|done].
    destruct (cancelled e) eqn:Ec; [done|].
    case_match; simplify_eq. by apply P_fire.
  - destruct (ready w) as [|[th|c] q] eqn:Er; [done| |].
    + simplify_eq. by apply P_call.
    + unfold task_step in H. simpl in H.
      destruct (objs w !! c) as [[[f args|f args|] []]|] eqn:Ec; try done.
      * simplify_eq. by apply P_coro.
      * unfold CallWrapper.enter in H. simpl in H.
        destruct (running (timer w)) eqn:Erun; simpl in H.
        -- assert (pending_task w c = true) as Hp
             by (unfold pending_task, task_state; by rewrite Ec).
           destruct (Hok Hp eq_refl) as [Hacts Hres].
           pose proof (P_invoke c q w HP Er Ec Erun) as HP1.
           destruct (run_acts (acts b) _) as [w2|] eqn:Ea; [|done].
           pose proof (acts_preserve _ _ _ HP1 Hacts Ea) as HP2.
           destruct (result b) as [r|]; simplify_eq; [|done].
           apply P_finish; [done..|].
           eapply run_acts_stable; [done|by apply P_fresh|].
           unfold CallWrapper.invoke, Aio.set_state; simpl.
           rewrite lookup_alter_eq, Ec. done.
        -- simplify_eq. by apply P_abort.
  - destruct (objs w !! c) as [[[| |] []]|] eqn:Ec; simplify_eq.
    by apply P_finish.
Qed.

Lemma run_preserve tr : forall w w',
  P w -> trace_ok ok_api ok_end tr w -> run tr w = Some w' -> P w'.
Proof.
  induction tr as [|e tr IH]; simpl; intros w w' HP Hok H.
  - by simplify_eq.
  - destruct Hok as [He Hrest].
    destruct (step e w) as [w1|] eqn:E; [|done].
    eauto using step_preserve.
Qed.
End Preservation.

(** ** The timer's field, in every execution *)

Ltac open_inv :=
  unfold slot_inv, calm_inv, armed_inv, disabled, fresh_ids, outstanding in *;
  simpl in *; destruct_and?; try use_fresh.

Ltac queue :=
  repeat match goal with
  | H : _ ∉ _ :: _ |- _ => apply not_elem_of_cons in H as [? ?]
  | H : _ ∉ _ ++ _ |- _ => apply not_elem_of_app in H as [? ?]
  | |- _ ∉ _ ++ _ => apply not_elem_of_app; split
  | |- _ ∉ _ :: _ => apply not_elem_of_cons; split
  | |- _ ∉ [] => apply not_elem_of_nil
  end; try done.

Ltac break_world w :=
  open_world w; open_inv; unf; simpl in *;
  repeat case_match; simplify_eq; simpl in *.

Lemma slot_init : slot_inv init_world.
Proof.
  unfold slot_inv, fresh_ids, outstanding; simpl.
  split_and!; [by intros; split; apply lookup_empty | done | done | apply not_elem_of_nil].
Qed.

Lemma slot_fresh w : slot_inv w -> fresh_ids w.
Proof. by intros [? _]. Qed.

Lemma slot_tick t w : slot_inv w -> slot_inv (set_now t w).
Proof. intros H. break_world w. split_and!; try done; finish_map. Qed.

Lemma slot_api a w w' : slot_inv w -> any_api a w -> do_api a w = Some w' -> slot_inv w'.
Proof.
  intros H _ Ha. destruct a; break_world w.
  all: split_and!; try done; queue.
  all: try (intros k Hk; split); finish_map.
Qed.

Lemma slot_fire h e w :
  slot_inv w -> scheduled w !! h = Some e -> cancelled e = false ->
  slot_inv (run_thunk (target e) (set_scheduled (delete h (scheduled w)) w)).
Proof.
  intros H Hh Hc. destruct e as [t x []]; break_world w.
  all: split_and!; try done; queue.
  all: try (intros k Hk; split); finish_map.
Qed.

Lemma slot_call th q w :
  slot_inv w -> ready w = RCall th :: q -> slot_inv (run_thunk th (set_ready q w)).
Proof.
  intros H Hq. destruct th; break_world w; queue.
  all: split_and!; try done; queue.
  all: try (intros k Hk; split); finish_map.
Qed.

Lemma slot_set_state c s q w :
  slot_inv w -> ready w = RStep c :: q -> slot_inv (Aio.set_state c s (set_ready q w)).
Proof.
  intros H Hq. break_world w; queue.
  all: split_and!; try done; queue.
  all: try (intros k Hk; split); finish_map.
Qed.

Lemma slot_coro c f args q w :
  slot_inv w -> ready w = RStep c :: q ->
  objs w !! c = Some (Awaitable_ (UserCoro f args) Pending) ->
  slot_inv (Aio.set_state c Finished (emit (Executed f args) (set_ready q w))).
Proof. intros H Hq _. by apply (slot_set_state c Finished q w). Qed.

Lemma slot_abort c q w :
  slot_inv w -> ready w = RStep c :: q ->
  objs w !! c = Some (Awaitable_ CallWrapper Pending) ->
  running (timer w) = false ->
  slot_inv (Aio.set_state c Finished (set_ready q w)).
Proof. intros H Hq _ _. by apply slot_set_state. Qed.

Lemma slot_invoke c q w :
  slot_inv w -> ready w = RStep c :: q ->
  objs w !! c = Some (Awaitable_ CallWrapper Pending) ->
  running (timer w) = true ->
  slot_inv (CallWrapper.invoke c (set_ready q w)).
Proof. intros H Hq _ _. by apply (slot_set_state c Active q w). Qed.

Lemma slot_finish c r w :
  slot_inv w -> any_end r -> objs w !! c = Some (Awaitable_ CallWrapper Active) ->
  slot_inv (CallWrapper.finish c r w).
Proof.
  intros H _ Hc. destruct r; break_world w.
  all: split_and!; try done; queue.
  all: try (intros k Hk; split); finish_map.
Qed.

Lemma acts_ok_any l : forall w, acts_ok any_api l w.
Proof.
  induction l as [|a l IH]; simpl; intros w; [done|].
  split; [done|]. by destruct (do_api a w).
Qed.

Lemma outcome_ok_any o : outcome_ok any_end o.
Proof. by destruct o. Qed.

Lemma event_ok_any e w : event_ok any_api any_end e w.
Proof.
  destruct e; simpl; try done.
  destruct (ready w) as [|[|] ?]; try done.
  intros _ _. split; [apply acts_ok_any | apply outcome_ok_any].
Qed.

Lemma trace_ok_any tr : forall w, trace_ok any_api any_end tr w.
Proof.
  induction tr as [|e tr IH]; simpl; intros w; [done|].
  split; [apply event_ok_any|]. by destruct (step e w).
Qed.

Lemma slot_step e w w' : slot_inv w -> step e w = Some w' -> slot_inv w'.
Proof.
  intros H Hs. pose proof (event_ok_any e w) as Hok.
  revert H Hok Hs.
  apply step_preserve;
    eauto using slot_fresh, slot_tick, slot_api, slot_fire, slot_call, slot_coro,
      slot_abort, slot_invoke, slot_finish.
Qed.

Lemma slot_run tr w w' : slot_inv w -> run tr w = Some w' -> slot_inv w'.
Proof.
  intros H Hr. pose proof (trace_ok_any tr w) as Hok.
  revert w w' H Hok Hr.
  apply run_preserve;
    eauto using slot_fresh, slot_tick, slot_api, slot_fire, slot_call, slot_coro,
      slot_abort, slot_invoke, slot_finish.
Qed.

Lemma slot_acts l w w' : slot_inv w -> run_acts l w = Some w' -> slot_inv w'.
Proof.
  intros H Hr. pose proof (acts_ok_any l w) as Hok.
  revert w w' H Hok Hr. apply acts_preserve. eauto using slot_api.
Qed.

(** ** One handle at a time, as long as no start() races a task *)

Lemma calm_init : calm_inv init_world.
Proof.
  unfold calm_inv; simpl. split_and!; intros *; by rewrite lookup_empty.
Qed.

Ltac case_lookups :=
  repeat match goal with
  | H : context [ match ?m !! ?k with _ => _ end ] |- _ =>
      destruct (m !! k) eqn:?; simpl in H
  | H : context [ _ <$> (?m !! ?k) ] |- _ =>
      destruct (m !! k) eqn:?; simpl in H
  | |- context [ match ?m !! ?k with _ => _ end ] =>
      destruct (m !! k) eqn:?; simpl
  | |- context [ _ <$> (?m !! ?k) ] =>
      destruct (m !! k) eqn:?; simpl
  end;
  csimpl in *; simplify_eq; simpl in *;
  rewrite ?andb_false_r, ?andb_true_r in *; simplify_eq; rew_lookups.

Ltac calm_solve :=
  split_and!; try done; queue; finish_map; case_lookups; try done;
  try first [timeout 10 sfirstorder | timeout 20 hauto | timeout 20 (exfalso; hauto)].

Lemma calm_tick t w : slot_inv w -> calm_inv w -> calm_inv (set_now t w).
Proof. intros Hs H. break_world w. calm_solve. Qed.

Lemma calm_api a w w' :
  slot_inv w -> calm_inv w -> api_calm a w -> do_api a w = Some w' -> calm_inv w'.
Proof.
  intros Hs H Hok Ha. destruct a; simpl in Hok.
  1: destruct (running (timer w)) eqn:Hrun;
     [|specialize (Hok eq_refl); rewrite has_live_task_false in Hok].
  all: break_world w.
  all: calm_solve.
Qed.

Lemma calm_fire h e w :
  slot_inv w -> calm_inv w -> scheduled w !! h = Some e -> cancelled e = false ->
  calm_inv (run_thunk (target e) (set_scheduled (delete h (scheduled w)) w)).
Proof.
  intros Hs H Hh Hc. destruct e as [t x []]; break_world w.
  all: calm_solve.
Qed.

Lemma calm_call th q w :
  slot_inv w -> calm_inv w -> ready w = RCall th :: q ->
  calm_inv (run_thunk th (set_ready q w)).
Proof.
  intros Hs H Hq. destruct th; break_world w; queue.
  all: calm_solve.
Qed.

Lemma calm_coro c f args q w :
  slot_inv w -> calm_inv w -> ready w = RStep c :: q ->
  objs w !! c = Some (Awaitable_ (UserCoro f args) Pending) ->
  calm_inv (Aio.set_state c Finished (emit (Executed f args) (set_ready q w))).
Proof. intros Hs H Hq Hc. break_world w. calm_solve. Qed.

Lemma calm_abort c q w :
  slot_inv w -> calm_inv w -> ready w = RStep c :: q ->
  objs w !! c = Some (Awaitable_ CallWrapper Pending) ->
  running (timer w) = false ->
  calm_inv (Aio.set_state c Finished (set_ready q w)).
Proof. intros Hs H Hq Hc Hr. break_world w. calm_solve. Qed.

Lemma calm_invoke c q w :
  slot_inv w -> calm_inv w -> ready w = RStep c :: q ->
  objs w !! c = Some (Awaitable_ CallWrapper Pending) ->
  running (timer w) = true ->
  calm_inv (CallWrapper.invoke c (set_ready q w)).
Proof. intros Hs H Hq Hc Hr. break_world w. calm_solve. Qed.

Lemma calm_finish c r w :
  slot_inv w -> calm_inv w -> objs w !! c = Some (Awaitable_ CallWrapper Active) ->
  calm_inv (CallWrapper.finish c r w).
Proof.
  intros Hs H Hc. destruct r; break_world w.
  all: calm_solve.
Qed.

Lemma owned_run tr w w' :
  owned_inv w -> calm tr w -> run tr w = Some w' -> owned_inv w'.
Proof.
  revert tr w w'. unfold calm.
  apply (run_preserve owned_inv api_calm any_end); unfold owned_inv.
  - intros w [H _]. by apply slot_fresh.
  - intros t w [? ?] _. split; [by apply slot_tick | by apply calm_tick].
  - intros a w w' [? ?] ? ?. split; [by eapply slot_api | by eapply calm_api].
  - intros h e w [? ?] ? ? _. split; [by apply slot_fire | by apply calm_fire].
  - intros th q w [? ?] ?. split; [by apply slot_call | by apply calm_call].
  - intros c f args q w [? ?] ? ?. split; [by apply slot_coro | by apply calm_coro].
  - intros c q w [? ?] ? ? ?. split; [by apply slot_abort | by apply calm_abort].
  - intros c q w [? ?] ? ? ?. split; [by apply slot_invoke | by apply calm_invoke].
  - intros c r w [? ?] ? ?. split; [by apply slot_finish | by apply calm_finish].
Qed.

Ltac logs :=
  unfold invocations in *; simpl in *; rewrite ?omap_app; simpl; rewrite ?app_nil_r.

Ltac inv_solve :=
  split_and?; try done; queue; logs; finish_map; case_lookups; try done;
  try first [timeout 10 sfirstorder | timeout 20 hauto | timeout 20 (exfalso; hauto)].

Ltac armed_old :=
  match goal with
  | H : _ \/ (exists c a, _ /\ _) |- _ =>
      let c0 := fresh "c" in
      let a0 := fresh "a" in
      destruct H as [H|(c0 & a0 & ? & ?)];
      [by left | right; exists c0, a0; split; [finish_map|done]]
  end.

Ltac armed_new :=
  right; eexists _, _; split;
  [first [rewrite lookup_alter_eq, lookup_insert_eq; reflexivity
         |rewrite lookup_alter_eq; rew_lookups; reflexivity]
  |done].

Ltac armed_solve :=
  intros; simplify_eq;
  repeat match goal with H : ?x = ?x -> _ |- _ => specialize (H eq_refl) end;
  first [by left | armed_old | armed_new].

(** ** A running timer is armed, unless a callback failed *)

Lemma armed_init : armed_inv init_world.
Proof. by unfold armed_inv. Qed.

Lemma armed_tick t w : slot_inv w -> armed_inv w -> armed_inv (set_now t w).
Proof. intros Hs H. break_world w. armed_solve. Qed.

Lemma armed_api a w w' :
  slot_inv w -> armed_inv w -> do_api a w = Some w' -> armed_inv w'.
Proof.
  intros Hs H Ha. destruct a; break_world w.
  all: armed_solve.
Qed.

Lemma armed_fire h e w :
  slot_inv w -> armed_inv w -> scheduled w !! h = Some e -> cancelled e = false ->
  armed_inv (run_thunk (target e) (set_scheduled (delete h (scheduled w)) w)).
Proof.
  intros Hs H Hh Hc. destruct e as [t x []]; break_world w.
  all: armed_solve.
Qed.

Lemma armed_call th q w :
  slot_inv w -> armed_inv w -> ready w = RCall th :: q ->
  armed_inv (run_thunk th (set_ready q w)).
Proof.
  intros Hs H Hq. destruct th; break_world w; queue.
  all: armed_solve.
Qed.

Lemma armed_coro c f args q w :
  slot_inv w -> armed_inv w -> ready w = RStep c :: q ->
  objs w !! c = Some (Awaitable_ (UserCoro f args) Pending) ->
  armed_inv (Aio.set_state c Finished (emit (Executed f args) (set_ready q w))).
Proof. intros Hs H Hq Hc. break_world w. armed_solve. Qed.

Lemma armed_abort c q w :
  slot_inv w -> armed_inv w -> ready w = RStep c :: q ->
  objs w !! c = Some (Awaitable_ CallWrapper Pending) ->
  running (timer w) = false ->
  armed_inv (Aio.set_state c Finished (set_ready q w)).
Proof. intros Hs H Hq Hc Hr. break_world w. armed_solve. Qed.

Lemma armed_invoke c q w :
  slot_inv w -> armed_inv w -> ready w = RStep c :: q ->
  objs w !! c = Some (Awaitable_ CallWrapper Pending) ->
  running (timer w) = true ->
  armed_inv (CallWrapper.invoke c (set_ready q w)).
Proof.
  intros Hs H Hq Hc Hr. break_world w. intros _. right.
  exists c, (Awaitable_ CallWrapper Active). by rewrite lookup_alter_eq, Hc.
Qed.

Lemma armed_finish c r w :
  slot_inv w -> armed_inv w -> no_exception r ->
  objs w !! c = Some (Awaitable_ CallWrapper Active) ->
  armed_inv (CallWrapper.finish c r w).
Proof.
  intros Hs H Hr Hc. destruct r; [|done]. break_world w.
  all: armed_solve.
Qed.

(** ** A stopped timer stays silent, and so does a disabled one *)

Ltac open_more := unfold stopped_at, dead_at, api_no_start, api_no_stop in *.

Lemma stopped_tick l t w : stopped_at l w -> stopped_at l (set_now t w).
Proof. intros H. open_more. break_world w. inv_solve. Qed.

Lemma stopped_api l a w w' :
  stopped_at l w -> api_no_start a w -> do_api a w = Some w' -> stopped_at l w'.
Proof.
  intros H Hok Ha. open_more. destruct a; try done; break_world w.
  all: inv_solve.
Qed.

Lemma stopped_thunk l th w : stopped_at l w -> stopped_at l (run_thunk th w).
Proof.
  intros H. open_more. destruct th; break_world w.
  all: inv_solve.
Qed.

Lemma stopped_coro l c f args q w :
  stopped_at l w ->
  stopped_at l (Aio.set_state c Finished (emit (Executed f args) (set_ready q w))).
Proof. intros H. open_more. break_world w. inv_solve. Qed.

Lemma stopped_abort l c q w :
  stopped_at l w -> stopped_at l (Aio.set_state c Finished (set_ready q w)).
Proof. intros H. open_more. break_world w. inv_solve. Qed.

Lemma stopped_finish l c r w : stopped_at l w -> stopped_at l (CallWrapper.finish c r w).
Proof.
  intros H. open_more. destruct r; break_world w.
  all: inv_solve.
Qed.

Lemma dead_tick l t w : dead_at l w -> dead_at l (set_now t w).
Proof. intros H. open_more. break_world w. inv_solve. Qed.

Lemma dead_api l a w w' :
  slot_inv w -> dead_at l w -> api_no_stop a w -> do_api a w = Some w' -> dead_at l w'.
Proof.
  intros Hs H Hok Ha. open_more. destruct a; try done; break_world w.
  all: inv_solve.
Qed.

Lemma dead_fire l h e w :
  slot_inv w -> dead_at l w -> scheduled w !! h = Some e -> cancelled e = false ->
  dead_at l (run_thunk (target e) (set_scheduled (delete h (scheduled w)) w)).
Proof.
  intros Hs H Hh Hc. open_more. destruct e as [t x []]; break_world w.
  all: inv_solve.
Qed.

Lemma dead_call l th q w :
  slot_inv w -> dead_at l w -> ready w = RCall th :: q ->
  dead_at l (run_thunk th (set_ready q w)).
Proof.
  intros Hs H Hq. open_more. destruct th; break_world w; queue.
  all: inv_solve.
Qed.

Lemma dead_coro l c f args q w :
  slot_inv w -> dead_at l w ->
  dead_at l (Aio.set_state c Finished (emit (Executed f args) (set_ready q w))).
Proof. intros Hs H. open_more. break_world w. inv_solve. Qed.

Lemma armed_run tr w w' :
  armed_slot w -> no_failure tr w -> run tr w = Some w' -> armed_slot w'.
Proof.
  revert tr w w'. unfold no_failure.
  apply (run_preserve armed_slot any_api no_exception); unfold armed_slot.
  - intros w [H _]. by apply slot_fresh.
  - intros t w [? ?] _. split; [by apply slot_tick | by apply armed_tick].
  - intros a w w' [? ?] ? ?. split; [by eapply slot_api | by eapply armed_api].
  - intros h e w [? ?] ? ? _. split; [by apply slot_fire | by apply armed_fire].
  - intros th q w [? ?] ?. split; [by apply slot_call | by apply armed_call].
  - intros c f args q w [? ?] ? ?. split; [by apply slot_coro | by apply armed_coro].
  - intros c q w [? ?] ? ? ?. split; [by apply slot_abort | by apply armed_abort].
  - intros c q w [? ?] ? ? ?. split; [by apply slot_invoke | by apply armed_invoke].
  - intros c r w [? ?] ? ?. split; [by apply slot_finish | by apply armed_finish].
Qed.

Lemma stopped_run tr w w' :
  slot_inv w -> running (timer w) = false -> no_start tr w -> run tr w = Some w' ->
  running (timer w') = false /\ invocations w' = invocations w.
Proof.
  intros Hs Hr Hok Hrun.
  cut (slot_inv w' /\ stopped_at (invocations w) w'); [by intros [_ ?]|].
  assert (slot_inv w /\ stopped_at (invocations w) w) as HP by done.
  clear Hs Hr. revert HP Hok Hrun. unfold no_start.
  generalize (invocations w) as l. intros l. revert tr w w'.
  apply (run_preserve (fun w => slot_inv w /\ stopped_at l w) api_no_start any_end).
  - intros w [H _]. by apply slot_fresh.
  - intros t w [? ?] _. split; [by apply slot_tick | by apply stopped_tick].
  - intros a w w' [? ?] ? ?. split; [by eapply slot_api | by eapply stopped_api].
  - intros h e w [? ?] ? ? _. split; [by apply slot_fire | by apply stopped_thunk].
  - intros th q w [? ?] ?. split; [by apply slot_call | by apply stopped_thunk].
  - intros c f args q w [? ?] ? ?. split; [by apply slot_coro | by apply stopped_coro].
  - intros c q w [? ?] ? ? ?. split; [by apply slot_abort | by apply stopped_abort].
  - intros c q w [? [? ?]] ? ? ?. congruence.
  - intros c r w [? ?] ? ?. split; [by apply slot_finish | by apply stopped_finish].
Qed.

Lemma dead_run tr w w' :
  slot_inv w -> disabled w -> running (timer w) = true -> no_stop tr w ->
  run tr w = Some w' ->
  disabled w' /\ running (timer w') = true /\ invocations w' = invocations w.
Proof.
  intros Hs Hd Hr Hok Hrun.
  cut (slot_inv w' /\ dead_at (invocations w) w'); [by intros [_ ?]|].
  assert (slot_inv w /\ dead_at (invocations w) w) as HP by done.
  clear Hs Hr Hd. revert HP Hok Hrun. unfold no_stop.
  generalize (invocations w) as l. intros l. revert tr w w'.
  apply (run_preserve (fun w => slot_inv w /\ dead_at l w) api_no_stop any_end).
  - intros w [H _]. by apply slot_fresh.
  - intros t w [? ?] _. split; [by apply slot_tick | by apply dead_tick].
  - intros a w w' [? ?] ? ?. split; [by eapply slot_api | by eapply dead_api].
  - intros h e w [? ?] ? ? _. split; [by apply slot_fire | by apply dead_fire].
  - intros th q w [? ?] ?. split; [by apply slot_call | by apply dead_call].
  - intros c f args q w [? ?] ? ?. split; [by apply slot_coro | by apply dead_coro].
  - intros c q w [? (? & ? & ?)] ? ? ?. congruence.
  - intros c q w [? ((? & ? & Hl) & ? & ?)] ? Hc ?.
    by specialize (Hl _ _ Hc).
  - intros c r w [? ((? & ? & Hl) & ? & ?)] ? Hc.
    by specialize (Hl _ _ Hc).
Qed.

(** ** Objects and handles of the facade *)

Ltac open_facade := unfold leaked, dead_handle, handle_for in *.

Ltac facade_solve :=
  split_and?; try done; queue; finish_map; case_lookups; try done;
  try first [timeout 10 sfirstorder | timeout 20 hauto | timeout 20 (exfalso; hauto)].

Section Facade.
Variable F : world -> Prop.
Hypothesis F_tick : forall t w, slot_inv w -> F w -> F (set_now t w).
Hypothesis F_api : forall a w w', slot_inv w -> F w -> do_api a w = Some w' -> F w'.
Hypothesis F_fire : forall h e w,
  slot_inv w -> F w -> scheduled w !! h = Some e -> cancelled e = false ->
  F (run_thunk (target e) (set_scheduled (delete h (scheduled w)) w)).
Hypothesis F_call : forall th q w,
  slot_inv w -> F w -> ready w = RCall th :: q -> F (run_thunk th (set_ready q w)).
Hypothesis F_state : forall c s e q w,
  slot_inv w -> F w -> ready w = RStep c :: q ->
  objs w !! c = Some (Awaitable_ e Pending) ->
  F (Aio.set_state c s (set_ready q w)).
Hypothesis F_emit : forall o w, F w -> F (emit o w).
Hypothesis F_finish : forall c r w,
  slot_inv w -> F w -> objs w !! c = Some (Awaitable_ CallWrapper Active) ->
  F (CallWrapper.finish c r w).

Lemma facade_run tr w w' :
  slot_inv w -> F w -> run tr w = Some w' -> slot_inv w' /\ F w'.
Proof.
  intros Hs HP Hr. pose proof (trace_ok_any tr w) as Hok.
  assert (slot_inv w /\ F w) as H by done. clear Hs HP.
  revert tr w w' H Hok Hr.
  apply (run_preserve (fun w => slot_inv w /\ F w) any_api any_end).
  - intros w [H _]. by apply slot_fresh.
  - intros t w [? ?] _. split; [by apply slot_tick | by apply F_tick].
  - intros a w w' [? ?] ? ?. split; [by eapply slot_api | by eapply F_api].
  - intros h e w [? ?] ? ? _. split; [by apply slot_fire | by apply F_fire].
  - intros th q w [? ?] ?. split; [by apply slot_call | by apply F_call].
  - intros c f args q w [? ?] ? ?. split; [by apply slot_coro|].
    change (F (emit (Executed f args) (Aio.set_state c Finished (set_ready q w)))).
    apply F_emit. by eapply F_state.
  - intros c q w [? ?] ? ? ?. split; [by apply slot_abort | by eapply F_state].
  - intros c q w [? ?] ? ? ?. split; [by apply slot_invoke|].
    change (F (emit (Invoked (now w)) (Aio.set_state c Active (set_ready q w)))).
    apply F_emit. by eapply F_state.
  - intros c r w [? ?] ? ?. split; [by apply slot_finish | by apply F_finish].
Qed.
End Facade.

Lemma leaked_run c b tr w w' :
  slot_inv w -> leaked c b w -> run tr w = Some w' -> leaked c b w'.
Proof.
  intros Hs Hl Hr. eapply (facade_run (leaked c b)); [..|done|done|done].
  - intros t w0 ? H. open_facade. break_world w0. facade_solve.
  - intros a w0 w1 ? H Ha. open_facade. destruct a; break_world w0. all: facade_solve.
  - intros h e w0 ? H ? ?. open_facade. destruct e as [t x []]; break_world w0. all: facade_solve.
  - intros th q w0 ? H ?. open_facade. destruct th; break_world w0. all: facade_solve.
  - intros c0 s e q w0 ? H ? ?. open_facade. break_world w0. facade_solve.
  - intros o w0 H. open_facade. break_world w0. facade_solve.
  - intros c0 r w0 ? H ?. open_facade. destruct r; break_world w0. all: facade_solve.
Qed.

Lemma dead_handle_run h tr w w' :
  slot_inv w -> dead_handle h w -> run tr w = Some w' -> dead_handle h w'.
Proof.
  intros Hs Hl Hr. eapply (facade_run (dead_handle h)); [..|done|done|done].
  - intros t w0 ? H. open_facade. break_world w0. facade_solve.
  - intros a w0 w1 ? H Ha. open_facade. destruct a; break_world w0. all: facade_solve.
  - intros h0 e w0 ? H ? ?. open_facade. destruct e as [t x []]; break_world w0. all: facade_solve.
  - intros th q w0 ? H ?. open_facade. destruct th; break_world w0. all: facade_solve.
  - intros c0 s e q w0 ? H ? ?. open_facade. break_world w0. facade_solve.
  - intros o w0 H. open_facade. break_world w0. facade_solve.
  - intros c0 r w0 ? H ?. open_facade. destruct r; break_world w0. all: facade_solve.
Qed.

Lemma handle_for_run h t th tr w w' :
  slot_inv w -> handle_for h t th w -> run tr w = Some w' -> handle_for h t th w'.
Proof.
  intros Hs Hl Hr. eapply (facade_run (handle_for h t th)); [..|done|done|done].
  - intros t0 w0 ? H. open_facade. break_world w0. facade_solve.
  - intros a w0 w1 ? H Ha. open_facade. destruct a; break_world w0. all: facade_solve.
  - intros h0 e w0 ? H ? ?. open_facade. destruct e as [t0 x []]; break_world w0. all: facade_solve.
  - intros th0 q w0 ? H ?. open_facade. destruct th0; break_world w0. all: facade_solve.
  - intros c0 s e q w0 ? H ? ?. open_facade. break_world w0. facade_solve.
  - intros o w0 H. open_facade. break_world w0. facade_solve.
  - intros c0 r w0 ? H ?. open_facade. destruct r; break_world w0. all: facade_solve.
Qed.

Lemma run_app tr1 : forall tr2 w,
  run (tr1 ++ tr2) w = match run tr1 w with Some w1 => run tr2 w1 | None => None end.
Proof.
  induction tr1 as [|e tr1 IH]; simpl; intros tr2 w; [done|].
  destruct (step e w); [apply IH | done].
Qed.

Lemma dead_handle_never_fires h tr w w' :
  slot_inv w -> dead_handle h w -> run tr w = Some w' -> Fire h ∉ tr.
Proof.
  intros Hs Hd Hr Hin. apply list_elem_of_split in Hin as (tr1 & tr2 & ->).
  rewrite run_app in Hr. destruct (run tr1 w) as [w1|] eqn:E1; [|done].
  pose proof (dead_handle_run _ _ _ _ Hs Hd E1) as [_ Hc].
  simpl in Hr. destruct (scheduled w1 !! h) as [e|] eqn:Eh; [|done].
  by rewrite (Hc e eq_refl) in Hr.
Qed.

(** * The claims *)

(** ** FlexTimer.start *)

(** C4. start(delay) on a running timer changes nothing.  On a stopped
    timer it sets the state to Running, asks the loop for a dispatch
    at now + delay and keeps the handle the loop returned; nothing
    else changes.  For every delay >= 0, is_running() is true right
    after start(delay). *)
Theorem start_transition (delay : Q) (w : world) :
  (running (timer w) = true -> FlexTimer.start delay w = w) /\
  (running (timer w) = false ->
     let w' := FlexTimer.start delay w in
     let h := fst (Aio.call_at (now w + delay) ScheduleTask w) in
     running (timer w') = true /\
     scheduled w' = <[h := TimerHandle (now w + delay) false ScheduleTask]> (scheduled w) /\
     timer_handle (timer w') = Some h /\
     ready w' = ready w /\ objs w' = objs w /\ log w' = log w /\ now w' = now w) /\
  (0 <= delay -> FlexTimer.is_running (FlexTimer.start delay w) = true).
Proof.
  unfold FlexTimer.is_running, FlexTimer.start.
  destruct (running (timer w)) eqn:Hrun; simpl; split_and!; try done.
Qed.

Lemma start_transition_witness :
  FlexTimer.start 1 (FlexTimer.start 5 init_world) = FlexTimer.start 5 init_world /\
  timer_handle (timer (FlexTimer.start 5 init_world)) = Some 0%nat /\
  FlexTimer.is_running (FlexTimer.start 5 init_world) = true.
Proof.
  split_and!.
  - exact (proj1 (start_transition 1 (FlexTimer.start 5 init_world)) eq_refl).
  - apply (proj1 (proj2 (start_transition 5 init_world)) eq_refl).
  - apply (proj2 (proj2 (start_transition 5 init_world))). unfold Qle; simpl; lia.
Defined.

(** C10. start() does not look at its delay.  On a stopped timer and
    for every delay, negative ones included, the timer becomes Running
    and the dispatch is scheduled at now + delay exactly; when the
    delay is negative this lies before now, and the loop may run the
    dispatch at once, without any time passing. *)
Theorem start_any_delay (delay : Q) (w : world) :
  running (timer w) = false ->
  let w' := FlexTimer.start delay w in
  let h := next_id w in
  running (timer w') = true /\
  timer_handle (timer w') = Some h /\
  scheduled w' !! h = Some (TimerHandle (now w + delay) false ScheduleTask) /\
  (delay < 0 ->
     now w + delay < now w /\
     step (Fire h) w' =
       Some (FlexTimer._schedule_task (set_scheduled (delete h (scheduled w')) w'))).
Proof.
  intros Hrun. unfold FlexTimer.start. rewrite Hrun. simpl.
  split_and!; try done.
  - by rewrite lookup_insert_eq.
  - intros Hd. split; [lra|].
    rewrite lookup_insert_eq. simpl.
    destruct (Qle_bool (now w + delay) (now w)) eqn:E; [done|].
    assert (now w + delay <= now w) as Hle by lra.
    apply Qle_bool_iff in Hle. congruence.
Qed.

Lemma start_any_delay_witness :
  scheduled (FlexTimer.start (-3) init_world) !! 0%nat =
    Some (TimerHandle (0 + -3) false ScheduleTask) /\
  is_Some (step (Fire 0%nat) (FlexTimer.start (-3) init_world)).
Proof.
  destruct (start_any_delay (-3) init_world eq_refl) as (_ & _ & Hs & Hf).
  split; [exact Hs|].
  assert (-3 < 0) as Hneg by reflexivity.
  destruct (Hf Hneg) as [_ Hf']. eexists. exact Hf'.
Defined.

(** ** FlexTimer.stop *)

(** C5. stop() on a stopped timer changes nothing.  On a running timer
    it sets the state to Stopped and, when a handle is pending, cancels
    it and clears the field.  A second stop() changes nothing more. *)
Theorem stop_transition (w : world) :
  (running (timer w) = false -> FlexTimer.stop w = w) /\
  (running (timer w) = true ->
     let w' := FlexTimer.stop w in
     running (timer w') = false /\
     timer_handle (timer w') = None /\
     (forall h, timer_handle (timer w) = Some h ->
        w' = set_timer (MkTimer false None) (Aio.cancel h w) /\
        outstanding w' h = false) /\
     (timer_handle (timer w) = None -> scheduled w' = scheduled w)) /\
  FlexTimer.stop (FlexTimer.stop w) = FlexTimer.stop w.
Proof.
  unfold FlexTimer.stop.
  destruct w as [n i s r o l [[] [h|]]]; simpl; split_and!; try done.
  intros _. split_and!; try done. intros h' [= <-]. split; [done|].
  unfold outstanding; simpl. rewrite lookup_alter_eq.
  destruct (s !! h); simpl; [apply andb_false_r | done].
Qed.

Lemma stop_transition_witness :
  FlexTimer.stop init_world = init_world /\
  outstanding (FlexTimer.stop (FlexTimer.start 5 init_world)) 0%nat = false.
Proof.
  split.
  - exact (proj1 (stop_transition init_world) eq_refl).
  - destruct (stop_transition (FlexTimer.start 5 init_world)) as (_ & H & _).
    specialize (H eq_refl). destruct H as (_ & _ & H & _).
    apply (H 0%nat eq_refl).
Defined.

(** ** FlexTimer._call_wrapper *)

Lemma pending_task_lookup w c :
  pending_task w c = true <-> objs w !! c = Some (Awaitable_ CallWrapper Pending).
Proof.
  unfold pending_task, task_state.
  destruct (objs w !! c) as [[[] []]|]; split; (done || congruence).
Qed.

Lemma in_callback_lookup w c :
  in_callback w c = true <-> objs w !! c = Some (Awaitable_ CallWrapper Active).
Proof.
  unfold in_callback, task_state.
  destruct (objs w !! c) as [[[] []]|]; split; (done || congruence).
Qed.

Lemma stop_stopped w :
  running (timer (FlexTimer.stop w)) = false /\
  invocations (FlexTimer.stop w) = invocations w.
Proof.
  unfold FlexTimer.stop.
  by destruct w as [n i s r o l [[] [h|]]].
Qed.

(** C1. When stop() has returned before the body of the invocation
    task starts, and nobody calls start() in between, the task aborts
    at entry: the callback is not invoked, nothing is scheduled, and
    the timer stays Stopped with no handle. *)
Theorem cancellation_race_guard tr0 w tr w1 c q b :
  run tr0 init_world = Some w ->
  run (Call Stop :: tr) w = Some w1 ->
  no_start tr (FlexTimer.stop w) ->
  ready w1 = RStep c :: q ->
  pending_task w1 c = true ->
  exists w2,
    step (RunReady b) w1 = Some w2 /\
    invocations w2 = invocations w /\
    running (timer w2) = false /\
    timer_handle (timer w2) = None /\
    scheduled w2 = scheduled w1 /\
    task_state w2 c = Some Finished.
Proof.
  intros Hreach Hrun Hns Hq Hp. simpl in Hrun.
  pose proof (slot_run _ _ _ slot_init Hreach) as Hs.
  assert (slot_inv (FlexTimer.stop w)) as Hs'.
  { by apply (slot_api Stop w). }
  destruct (stop_stopped w) as [Hst Hinv].
  destruct (stopped_run _ _ _ Hs' Hst Hns Hrun) as [Hr1 Hi1].
  pose proof (slot_run _ _ _ Hs' Hrun) as (_ & _ & Hnone & _).
  apply pending_task_lookup in Hp.
  exists (Aio.set_state c Finished (set_ready q w1)).
  split_and!.
  - simpl. rewrite Hq. unfold task_step. simpl. rewrite Hp.
    unfold CallWrapper.enter. simpl. by rewrite Hr1.
  - unfold invocations in *. simpl. congruence.
  - done.
  - simpl. auto.
  - done.
  - unfold task_state. simpl. by rewrite lookup_alter_eq, Hp.
Qed.

Lemma cancellation_race_guard_witness :
  exists w2,
    step (RunReady (Behaviour [] (Done (Value 1))))
      (exec [Call (Start 0); Fire 0%nat; Call Stop; Tick 3] init_world) = Some w2 /\
    invocations w2 = invocations (exec [Call (Start 0); Fire 0%nat] init_world) /\
    running (timer w2) = false /\
    timer_handle (timer w2) = None /\
    scheduled w2 =
      scheduled (exec [Call (Start 0); Fire 0%nat; Call Stop; Tick 3] init_world) /\
    task_state w2 1%nat = Some Finished.
Proof.
  apply (cancellation_race_guard [Call (Start 0); Fire 0%nat]
           (exec [Call (Start 0); Fire 0%nat] init_world) [Tick 3]
           (exec [Call (Start 0); Fire 0%nat; Call Stop; Tick 3] init_world) 1%nat []).
  - vm_compute; reflexivity.
  - vm_compute; reflexivity.
  - vm_compute. tauto.
  - vm_compute; reflexivity.
  - vm_compute; reflexivity.
Defined.

(** C3. When the callback has produced its timestamp, directly or
    through the awaitable it returned, and the timer is still Running,
    the next dispatch is scheduled at exactly that timestamp and its
    handle is kept in the field; when the timer was stopped meanwhile,
    nothing is scheduled and the field stays empty. *)
Theorem reschedule_correct (c : nat) (ret : Q) :
  (forall w q l w2,
      ready w = RStep c :: q -> pending_task w c = true ->
      running (timer w) = true ->
      run_acts l (CallWrapper.invoke c (set_ready q w)) = Some w2 ->
      step (RunReady (Behaviour l (Done (Value ret)))) w =
        Some (CallWrapper.finish c (Value ret) w2) /\
      step (RunReady (Behaviour l Awaits)) w = Some w2) /\
  (forall w, in_callback w c = true ->
      step (Resume c (Value ret)) w = Some (CallWrapper.finish c (Value ret) w)) /\
  (forall w, running (timer w) = true ->
      let w' := CallWrapper.finish c (Value ret) w in
      let h := fst (Aio.call_at ret ScheduleTask w) in
      scheduled w' = <[h := TimerHandle ret false ScheduleTask]> (scheduled w) /\
      timer_handle (timer w') = Some h /\
      running (timer w') = true) /\
  (forall w, running (timer w) = false ->
      let w' := CallWrapper.finish c (Value ret) w in
      scheduled w' = scheduled w /\
      timer_handle (timer w') = timer_handle (timer w) /\
      running (timer w') = false).
Proof.
  split_and!.
  - intros w q l w2 Hq Hp Hr Hacts. apply pending_task_lookup in Hp.
    simpl. rewrite Hq. unfold task_step. simpl. rewrite Hp.
    unfold CallWrapper.enter. simpl. rewrite Hr. simpl. by rewrite Hacts.
  - intros w Hc. apply in_callback_lookup in Hc. simpl. by rewrite Hc.
  - intros w Hr. unfold CallWrapper.finish, CallWrapper.tail. by rewrite Hr.
  - intros w Hr. unfold CallWrapper.finish, CallWrapper.tail. by rewrite Hr.
Qed.

Lemma reschedule_correct_witness :
  let w := exec [Call (Start 0); Fire 0%nat; RunReady (Behaviour [] Awaits); Tick 2]
             init_world in
  step (Resume 1%nat (Value 7)) w = Some (CallWrapper.finish 1%nat (Value 7) w) /\
  scheduled (CallWrapper.finish 1%nat (Value 7) w) !! 2%nat =
    Some (TimerHandle 7 false ScheduleTask) /\
  timer_handle (timer (CallWrapper.finish 1%nat (Value 7) w)) = Some 2%nat.
Proof.
  intros w. destruct (reschedule_correct 1%nat 7) as (_ & Hres & Hrun & _).
  split; [apply Hres; vm_compute; reflexivity|].
  destruct (Hrun w) as (Hs & Hh & _); [vm_compute; reflexivity|].
  split; [rewrite Hs; vm_compute; reflexivity | rewrite Hh; vm_compute; reflexivity].
Defined.

(** ** EventLoop.register_callback and EventLoop.delay_callback *)

(** C6. register_callback returns nothing and runs nothing: a
    coroutine function is called, which only builds the coroutine, and
    the coroutine is wrapped in a task whose first step is queued; a
    plain function is queued with call_soon.  In both cases the body
    has not run when register_callback returns. *)
Theorem register_callback_dispatch (f : pyfunc) (args : list nat) (w : world) :
  let w' := snd (EventLoop.register_callback f args w) in
  fst (EventLoop.register_callback f args w) = tt /\
  log w' = log w /\
  scheduled w' = scheduled w /\
  timer w' = timer w /\
  (is_coroutine_function f = true ->
     objs w' !! next_id w = Some (Awaitable_ (UserCoro f args) Pending) /\
     ready w' = ready w ++ [RStep (next_id w)]) /\
  (is_coroutine_function f = false ->
     w' = Aio.call_soon (Partial f args) w /\
     ready w' = ready w ++ [RCall (Partial f args)] /\
     objs w' = objs w).
Proof.
  unfold EventLoop.register_callback, Aio.call_fn.
  destruct (is_coroutine_function f); simpl; split_and!; try done.
  intros _. split; [|done]. by rewrite lookup_alter_eq, lookup_insert_eq.
Qed.

Lemma register_callback_dispatch_witness :
  let co := PyFunc 1 true false in
  let fn := PyFunc 2 false false in
  ready (snd (EventLoop.register_callback co [] init_world)) = [RStep 0%nat] /\
  ready (snd (EventLoop.register_callback fn [] init_world)) = [RCall (Partial fn [])].
Proof.
  intros co fn. split.
  - destruct (register_callback_dispatch co [] init_world) as (_ & _ & _ & _ & H & _).
    destruct (H eq_refl) as [_ Hr]. exact Hr.
  - destruct (register_callback_dispatch fn [] init_world) as (_ & _ & _ & _ & _ & H).
    destruct (H eq_refl) as (_ & Hr & _). exact Hr.
Defined.

Lemma delay_callback_slot delay f args w :
  slot_inv w -> slot_inv (snd (EventLoop.delay_callback delay f args w)).
Proof. intros Hs. by apply (slot_api (Delay delay f args) w). Qed.

(** C7. For a coroutine function, delay_callback constructs nothing:
    the handle it schedules holds the function and its arguments.  The
    handle can run only once the delay has passed, and running it
    builds the coroutine and wraps it in a task in one step.  Once the
    handle is cancelled it never runs, so a coroutine that nobody
    awaits is never left behind. *)
Theorem deferred_coroutine_construction tr0 w delay f args :
  run tr0 init_world = Some w ->
  is_coroutine_function f = true ->
  let h := fst (EventLoop.delay_callback delay f args w) in
  let w1 := snd (EventLoop.delay_callback delay f args w) in
  (objs w1 = objs w /\ ready w1 = ready w /\ log w1 = log w) /\
  (scheduled w !! h = None /\
   scheduled w1 !! h = Some (TimerHandle (now w + delay) false (AsyncCallback f args))) /\
  (forall tr w2 w3, run tr w1 = Some w2 -> step (Fire h) w2 = Some w3 ->
     now w + delay <= now w2 /\
     w3 = EventLoop._async_callback f args (set_scheduled (delete h (scheduled w2)) w2) /\
     objs w2 !! next_id w2 = None /\
     objs w3 !! next_id w2 = Some (Awaitable_ (UserCoro f args) Pending) /\
     ready w3 = ready w2 ++ [RStep (next_id w2)]) /\
  (do_api (Cancel h) w1 = Some (Aio.cancel h w1) /\ objs (Aio.cancel h w1) = objs w) /\
  (forall tr1 tr2 w2, run (tr1 ++ Call (Cancel h) :: tr2) w1 = Some w2 -> Fire h ∉ tr2).
Proof.
  intros Hreach Hco h w1.
  pose proof (slot_run _ _ _ slot_init Hreach) as Hs.
  pose proof (delay_callback_slot delay f args w Hs) as Hs1. fold w1 in Hs1.
  assert (h = next_id w /\
          w1 = snd (Aio.call_at (now w + delay) (AsyncCallback f args) w)) as [Hh Hw1].
  { unfold h, w1, EventLoop.delay_callback. by rewrite Hco. }
  assert (handle_for h (now w + delay) (AsyncCallback f args) w1) as Hfor.
  { rewrite Hh, Hw1. split; simpl; [lia|]. rewrite lookup_insert_eq. by intros e [= <-]. }
  split_and!.
  - by rewrite Hw1.
  - by rewrite Hw1.
  - by rewrite Hw1.
  - rewrite Hh. by apply Hs.
  - rewrite Hh, Hw1. simpl. by rewrite lookup_insert_eq.
  - intros tr w2 w3 Hrun Hfire.
    pose proof (slot_run _ _ _ Hs1 Hrun) as Hs2.
    destruct (handle_for_run _ _ _ _ _ _ Hs1 Hfor Hrun) as [_ He].
    simpl in Hfire. destruct (scheduled w2 !! h) as [e|] eqn:Eh; [|done].
    destruct (He e eq_refl) as [Hwhen Htarget].
    destruct (cancelled e); [done|].
    destruct (Qle_bool (when e) (now w2)) eqn:Hle; [|done].
    apply Qle_bool_iff in Hle. rewrite Hwhen in Hle.
    rewrite Htarget in Hfire. simpl in Hfire. simplify_eq.
    split_and!; try done.
    + by apply Hs2.
    + unfold EventLoop._async_callback, Aio.call_fn. rewrite Hco. simpl.
      by rewrite lookup_alter_eq, lookup_insert_eq.
    + unfold EventLoop._async_callback, Aio.call_fn. by rewrite Hco.
  - simpl. rewrite Hh, Hw1. simpl. by rewrite lookup_insert_eq.
  - by rewrite Hw1.
  - intros tr1 tr2 w2 Hrun. rewrite run_app in Hrun.
    destruct (run tr1 w1) as [wa|] eqn:E1; [|done].
    pose proof (slot_run _ _ _ Hs1 E1) as Hsa.
    destruct (handle_for_run _ _ _ _ _ _ Hs1 Hfor E1) as [Hlt He].
    simpl in Hrun.
    destruct (scheduled wa !! h) as [e|] eqn:Eh.
    + destruct (He e eq_refl) as [_ Htarget]. rewrite Htarget in Hrun. simpl in Hrun.
      eapply (dead_handle_never_fires h tr2 (Aio.cancel h wa)); [| |done].
      * by apply (slot_api (Cancel h) wa);
          [| |simpl; rewrite Eh, Htarget].
      * split; [done|]. simpl. rewrite lookup_alter_eq, Eh. by intros e' [= <-].
    + eapply (dead_handle_never_fires h tr2 wa); [done| |done].
      split; [done|]. by rewrite Eh.
Qed.

Lemma deferred_coroutine_construction_witness :
  let co := PyFunc 1 true false in
  let w1 := snd (EventLoop.delay_callback 5 co [7%nat] init_world) in
  objs w1 = objs init_world /\
  scheduled w1 !! 0%nat = Some (TimerHandle (0 + 5) false (AsyncCallback co [7%nat])) /\
  Fire 0%nat ∉ [Tick 9; Call (Register co [])].
Proof.
  intros co w1.
  destruct (deferred_coroutine_construction [] init_world 5 co [7%nat] eq_refl eq_refl)
    as ((Ho & _) & (_ & Hs) & _ & _ & Hc).
  split; [exact Ho|]. split; [exact Hs|].
  apply (Hc [Tick 2] [Tick 9; Call (Register co [])]
           (exec ([Tick 2] ++ Call (Cancel 0%nat) :: [Tick 9; Call (Register co [])]) w1)).
  vm_compute; reflexivity.
Defined.

(** C9. The facade looks at the function, not at what a call returns.
    A plain function that returns an awaitable is queued like any
    plain function by register_callback and by delay_callback; when the
    loop runs it, the body runs, and the awaitable it returns is
    dropped: no task is made for it, and nothing ever awaits it. *)
Theorem plain_function_awaitable_discarded tr0 w f args :
  run tr0 init_world = Some w ->
  is_coroutine_function f = false ->
  returns_awaitable f = true ->
  let c := next_id w in
  let dropped (q : list ready_item) (w' : world) :=
    log w' = log w ++ [Executed f args] /\
    objs w !! c = None /\
    objs w' !! c = Some (Awaitable_ (PlainResult f args) Created) /\
    ready w' = q /\
    forall tr w'', run tr w' = Some w'' -> unawaited w'' c = true in
  snd (EventLoop.register_callback f args w) = Aio.call_soon (Partial f args) w /\
  (forall delay,
     EventLoop.delay_callback delay f args w = Aio.call_later delay (Partial f args) w) /\
  (forall q b, ready w = RCall (Partial f args) :: q ->
     exists w', step (RunReady b) w = Some w' /\ dropped q w') /\
  (forall h t, scheduled w !! h = Some (TimerHandle t false (Partial f args)) ->
     t <= now w ->
     exists w', step (Fire h) w = Some w' /\ dropped (ready w) w').
Proof.
  intros Hreach Hco Hret c dropped.
  pose proof (slot_run _ _ _ slot_init Hreach) as Hs.
  assert (forall w0, run_thunk (Partial f args) w0 =
            snd (Aio.new_object (PlainResult f args) (emit (Executed f args) w0))) as Hcall.
  { intros w0. unfold run_thunk, Aio.call_fn. by rewrite Hco, Hret. }
  assert (forall e w0 q, step e w = Some (run_thunk (Partial f args) w0) ->
            next_id w0 = next_id w -> objs w0 = objs w -> log w0 = log w ->
            ready w0 = q ->
            dropped q (run_thunk (Partial f args) w0)) as Hdrop.
  { intros e w0 q Hstep Hn Ho Hl Hq.
    pose proof (slot_step _ _ _ Hs Hstep) as Hs'.
    assert (objs (run_thunk (Partial f args) w0) !! c
            = Some (Awaitable_ (PlainResult f args) Created)) as Hc.
    { rewrite Hcall. simpl. rewrite Hn. by rewrite lookup_insert_eq. }
    unfold dropped. split_and!; try done.
    - rewrite Hcall. simpl. by rewrite Hl.
    - by apply Hs.
    - by rewrite Hcall.
    - intros tr w'' Hrun.
      pose proof (leaked_run c _ tr _ w'' Hs' Hc Hrun) as Hlk.
      unfold unawaited. by rewrite Hlk. }
  split_and!.
  - unfold EventLoop.register_callback. by rewrite Hco.
  - intros delay. unfold EventLoop.delay_callback. by rewrite Hco.
  - intros q b Hq.
    assert (step (RunReady b) w = Some (run_thunk (Partial f args) (set_ready q w))) as Hstep
      by (simpl; by rewrite Hq).
    eexists. split; [exact Hstep|]. by apply (Hdrop (RunReady b)).
  - intros h t Hh Ht. apply Qle_bool_iff in Ht.
    assert (step (Fire h) w = Some (run_thunk (Partial f args)
              (set_scheduled (delete h (scheduled w)) w))) as Hstep
      by (simpl; rewrite Hh; simpl; by rewrite Ht).
    eexists. split; [exact Hstep|]. by apply (Hdrop (Fire h)).
Qed.

Lemma plain_function_awaitable_discarded_witness :
  let fn := PyFunc 3 false true in
  let w := exec [Call (Register fn [])] init_world in
  exists w', step (RunReady (Behaviour [] Awaits)) w = Some w' /\
    unawaited w' 0%nat = true /\
    unawaited (exec [Tick 4; Call (Start 0)] w') 0%nat = true.
Proof.
  intros fn w.
  destruct (plain_function_awaitable_discarded [Call (Register fn [])] w fn []
              eq_refl eq_refl eq_refl) as (_ & _ & H & _).
  destruct (H [] (Behaviour [] Awaits) eq_refl) as (w' & Hstep & _ & _ & _ & _ & Hrun).
  exists w'. split; [exact Hstep|]. split.
  - apply (Hrun []). reflexivity.
  - assert (Some w' = Some (exec [RunReady (Behaviour [] Awaits)] w)) as Heq.
    { rewrite <- Hstep. vm_compute. reflexivity. }
    injection Heq as ->.
    apply (Hrun [Tick 4; Call (Start 0)]). vm_compute; reflexivity.
Defined.

(** ** Ownership of the handle *)

Lemma outstanding_lookup w h :
  outstanding w h = true <->
  exists e, scheduled w !! h = Some e /\ is_timer_thunk (target e) = true /\
            cancelled e = false.
Proof.
  unfold outstanding. destruct (scheduled w !! h) as [e|]; split.
  - intros [? ?%negb_true_iff]%andb_true_iff. eauto.
  - intros (e' & [= <-] & -> & ->). done.
  - done.
  - by intros (e' & ? & _).
Qed.

Lemma is_live_task w c a :
  objs w !! c = Some a -> is_live a = true ->
  pending_task w c = true \/ in_callback w c = true.
Proof.
  intros Hc Hl. unfold pending_task, in_callback, task_state. rewrite Hc.
  destruct a as [[] []]; simpl in *; auto; done.
Qed.

Example race_two_handles :
  outstanding (exec race init_world) 2%nat = true /\
  outstanding (exec race init_world) 3%nat = true.
Proof. split; vm_compute; reflexivity. Qed.

Example failure_leaves_nothing :
  running (timer (exec failure init_world)) = true /\
  timer_handle (timer (exec failure init_world)) = None /\
  has_live_task (exec failure init_world) = false.
Proof. split_and!; vm_compute; reflexivity. Qed.

Example dispatched_gap :
  running (timer (exec dispatched init_world)) = true /\
  timer_handle (timer (exec dispatched init_world)) = None /\
  pending_task (exec dispatched init_world) 1%nat = true /\
  in_callback (exec dispatched init_world) 1%nat = false.
Proof. split_and!; vm_compute; reflexivity. Qed.

(** C2, as the specification states it, fails: once the callback has
    raised, the timer is Running, holds no handle and is not inside a
    callback invocation. *)
Lemma handle_ownership_counterexample :
  exists tr w, run tr init_world = Some w /\ ~ handle_ownership w.
Proof.
  exists failure, (exec failure init_world).
  split; [vm_compute; reflexivity|].
  intros (_ & Harmed & _).
  destruct Harmed as [Hh|[c Hc]]; [vm_compute; reflexivity| |].
  - apply Hh. vm_compute; reflexivity.
  - apply in_callback_lookup, elem_of_map_to_list in Hc.
    assert (map_to_list (objs (exec failure init_world))
            = [(1%nat, Awaitable_ CallWrapper Failed)]) as Hl
      by (vm_compute; reflexivity).
    rewrite Hl in Hc. apply list_elem_of_singleton in Hc. discriminate Hc.
Qed.

(** C2, amended.  In every execution the field holds a handle only
    while the timer is Running, and that handle is one the loop still
    holds; a stopped timer has no handle.  As long as no callback
    invocation has failed, a running timer has a handle or an
    invocation task that is queued or inside the callback.  As long as
    start() is not called on a stopped timer while such a task exists,
    the loop holds at most one handle of the timer, the one in the
    field. *)
Theorem handle_ownership_amended tr w :
  run tr init_world = Some w ->
  (forall h, timer_handle (timer w) = Some h ->
     outstanding w h = true /\ running (timer w) = true) /\
  (running (timer w) = false -> timer_handle (timer w) = None) /\
  (no_failure tr init_world -> running (timer w) = true ->
     timer_handle (timer w) <> None \/
     exists c, pending_task w c = true \/ in_callback w c = true) /\
  (calm tr init_world ->
     (forall h, outstanding w h = true -> timer_handle (timer w) = Some h) /\
     (forall h1 h2, outstanding w h1 = true -> outstanding w h2 = true -> h1 = h2)).
Proof.
  intros Hrun.
  pose proof (slot_run _ _ _ slot_init Hrun) as (Hf & Hslot & Hstop & _).
  split_and!.
  - intros h Hh. split; [by apply Hslot|].
    destruct (running (timer w)) eqn:E; [done|]. rewrite Hstop in Hh; done.
  - done.
  - intros Hnf Hr.
    destruct (armed_run tr init_world w) as [_ Harmed]; [|done|done|].
    { split; [apply slot_init | apply armed_init]. }
    destruct (Harmed Hr) as [?|(c & a & Hc & Hl)]; [by left|right].
    exists c. by eapply is_live_task.
  - intros Hcalm.
    destruct (owned_run tr init_world w) as [_ (Hown & _)]; [|done|done|].
    { split; [apply slot_init | apply calm_init]. }
    assert (forall h, outstanding w h = true -> timer_handle (timer w) = Some h) as Ho.
    { intros h (e & He & Ht & Hc)%outstanding_lookup. eauto. }
    split; [done|]. intros h1 h2 H1%Ho H2%Ho. congruence.
Qed.

Lemma handle_ownership_amended_witness :
  let tr := [Call (Start 0); Fire 0%nat; RunReady (Behaviour [Stop] Awaits);
             Resume 1%nat (Value 4); Call (Start 2)] in
  timer_handle (timer (exec tr init_world)) = Some 2%nat /\
  running (timer (exec tr init_world)) = true.
Proof.
  intros tr.
  destruct (handle_ownership_amended tr (exec tr init_world)) as (Hslot & _ & _ & H).
  { vm_compute; reflexivity. }
  destruct H as [Hown _]. { vm_compute. tauto. }
  assert (timer_handle (timer (exec tr init_world)) = Some 2%nat) as Hh.
  { apply Hown. vm_compute; reflexivity. }
  split; [exact Hh|]. apply (Hslot 2%nat Hh).
Defined.

(** ** A callback that raises *)

Lemma running_api a w w' :
  api_no_stop a w -> do_api a w = Some w' ->
  running (timer w) = true -> running (timer w') = true.
Proof.
  intros Hok Ha Hr. unfold api_no_stop in *. destruct a; try done; break_world w.
  all: done.
Qed.

Lemma running_acts l : forall w w',
  acts_ok api_no_stop l w -> run_acts l w = Some w' ->
  running (timer w) = true -> running (timer w') = true.
Proof.
  induction l as [|a l IH]; simpl; intros w w' Hok H Hr.
  - by simplify_eq.
  - destruct Hok as [Ha Hrest].
    destruct (do_api a w) as [w1|] eqn:E; [|done].
    eauto using running_api.
Qed.

Lemma owned_acts l w w' :
  owned_inv w -> acts_ok api_calm l w -> run_acts l w = Some w' -> owned_inv w'.
Proof.
  revert w w'. apply (acts_preserve owned_inv api_calm).
  intros a w w' [? ?] ? ?. split; [by eapply slot_api | by eapply calm_api].
Qed.

Lemma failure_disables c w :
  owned_inv w -> objs w !! c = Some (Awaitable_ CallWrapper Active) ->
  let w' := CallWrapper.finish c Exception w in
  slot_inv w' /\ disabled w' /\ task_state w' c = Some Failed.
Proof.
  intros [Hs (Hown & Hidle & Hone)] Hobj w'.
  split; [by apply slot_finish|].
  pose proof (Hidle c _ Hobj eq_refl) as Hnone.
  subst w'. unfold disabled, task_state. simpl. split_and!.
  - done.
  - intros h e He Ht. destruct (cancelled e) eqn:E; [done|].
    specialize (Hown h e He Ht E). congruence.
  - intros c' a. destruct (decide (c = c')) as [<-|Hne].
    + rewrite lookup_alter_eq, Hobj. by intros [= <-].
    + rewrite lookup_alter_ne by done. intros Hc'.
      destruct (is_live a) eqn:E; [|done].
      by specialize (Hone _ _ _ _ Hobj eq_refl Hc' E).
  - by rewrite lookup_alter_eq, Hobj.
Qed.

Example stop_then_raise :
  let tr := [Call (Start 0); Fire 0%nat] in
  let e := RunReady (Behaviour [Stop] (Done Exception)) in
  raises e 1%nat (exec tr init_world) /\
  running (timer (exec (tr ++ [e]) init_world)) = false.
Proof. vm_compute. split_and!; eauto. Qed.

Example raise_after_race :
  let tr := [Call (Start 0); Fire 0%nat; Call Stop; Call (Start 5)] in
  let e := RunReady (Behaviour [] (Done Exception)) in
  raises e 1%nat (exec tr init_world) /\
  timer_handle (timer (exec (tr ++ [e]) init_world)) = Some 2%nat /\
  invocations (exec (tr ++ [e; Tick 5; Fire 2%nat; RunReady (Behaviour [] Awaits)])
                 init_world) = [0; 5].
Proof. vm_compute. split_and!; eauto. Qed.

(** C8, as the specification states it, fails: a callback that calls
    stop() and then raises leaves the timer Stopped. *)
Lemma failure_semantics_counterexample :
  exists tr w e c w',
    run tr init_world = Some w /\ raises e c w /\ step e w = Some w' /\
    ~ left_armed_idle w'.
Proof.
  exists [Call (Start 0); Fire 0%nat],
         (exec [Call (Start 0); Fire 0%nat] init_world),
         (RunReady (Behaviour [Stop] (Done Exception))), 1%nat,
         (exec [Call (Start 0); Fire 0%nat;
                RunReady (Behaviour [Stop] (Done Exception))] init_world).
  split; [vm_compute; reflexivity|].
  split; [vm_compute; split_and!; eauto|].
  split; [vm_compute; reflexivity|].
  intros [Hr _]. vm_compute in Hr. discriminate Hr.
Qed.

Example stop_during_await_then_raise :
  let tr := [Call (Start 0); Fire 0%nat; RunReady (Behaviour [] Awaits); Call Stop] in
  raises (Resume 1%nat Exception) 1%nat (exec tr init_world) /\
  running (timer (exec (tr ++ [Resume 1%nat Exception]) init_world)) = false.
Proof. vm_compute. split_and!; eauto. Qed.

(** C8, amended.  In every execution in which the callback raises, the
    task catches nothing and schedules nothing: the exception ends the
    task, which is left failed and reported, and the state of the
    timer, its field and the handles of the loop are exactly as they
    were when the exception left the callback.  If the timer is then
    still Running, and no start() was called on the stopped timer
    while an invocation task existed, the timer has no handle, the
    loop holds no dispatch and no task of it, and the callback is not
    invoked again as long as nobody calls stop(). *)
Theorem callback_failure tr w e c w' :
  run tr init_world = Some w ->
  raises e c w ->
  step e w = Some w' ->
  (exists w0, at_end e c w = Some w0 /\
     w' = CallWrapper.finish c Exception w0 /\
     scheduled w' = scheduled w0 /\
     timer w' = timer w0 /\
     log w' = log w0 ++ [TaskError c]) /\
  task_state w' c = Some Failed /\
  (calm tr init_world -> calm [e] w -> running (timer w') = true ->
     timer_handle (timer w') = None /\
     (forall h, outstanding w' h = false) /\
     has_live_task w' = false /\
     (forall tr' w'', no_stop tr' w' -> run tr' w' = Some w'' ->
        invocations w'' = invocations w')).
Proof.
  intros Hrun Hraise Hstep.
  pose proof (slot_run _ _ _ slot_init Hrun) as Hs.
  assert (exists w0, at_end e c w = Some w0 /\
            w' = CallWrapper.finish c Exception w0 /\
            objs w0 !! c = Some (Awaitable_ CallWrapper Active) /\
            (calm tr init_world -> calm [e] w -> owned_inv w0))
    as (w0 & Hat & -> & Hc0 & Hown0).
  { destruct e as [| | |b|c' r]; try done; simpl in Hraise.
    - destruct Hraise as ([q Hq] & Hp & Hr & Hres).
      pose proof Hp as Hp'. apply pending_task_lookup in Hp.
      simpl in Hstep. rewrite Hq in Hstep.
      unfold task_step in Hstep. simpl in Hstep. rewrite Hp in Hstep.
      unfold CallWrapper.enter in Hstep. simpl in Hstep. rewrite Hr in Hstep.
      simpl in Hstep. rewrite Hres in Hstep.
      destruct (run_acts (acts b) _) as [w2|] eqn:Ea; [|done]. simplify_eq.
      exists w2. split_and!.
      + simpl. by rewrite Hq.
      + done.
      + eapply run_acts_stable; [done| |].
        * by apply slot_fresh, slot_invoke.
        * simpl. by rewrite lookup_alter_eq, Hp.
      + intros Hcalm Hce.
        assert (owned_inv w) as [_ Hc].
        { apply (owned_run tr init_world); [|done..].
          split; [apply slot_init | apply calm_init]. }
        unfold calm in Hce. simpl in Hce. rewrite Hq in Hce.
        destruct Hce as [Hce _]. destruct (Hce Hp' Hr) as [Hacts _].
        eapply owned_acts; [|done..].
        split; [by apply slot_invoke | by apply calm_invoke].
    - destruct Hraise as (-> & -> & Hin). apply in_callback_lookup in Hin.
      simpl in Hstep. rewrite Hin in Hstep. simplify_eq.
      exists w. split_and!; try done. intros Hcalm _.
      apply (owned_run tr init_world); [|done..].
      split; [apply slot_init | apply calm_init]. }
  split_and!.
  - by exists w0.
  - unfold task_state. simpl. by rewrite lookup_alter_eq, Hc0.
  - intros Hcalm Hce Hr.
    destruct (failure_disables c w0 (Hown0 Hcalm Hce) Hc0) as (Hs' & Hd' & _).
    split_and!.
    + apply Hd'.
    + intros h. destruct (outstanding _ h) eqn:E; [|done].
      apply outstanding_lookup in E as (e0 & He0 & Ht0 & Hc0').
      destruct Hd' as (_ & Hd' & _). rewrite (Hd' _ _ He0 Ht0) in Hc0'. done.
    + apply has_live_task_false, Hd'.
    + intros tr' w'' Hns' Hrun'.
      by destruct (dead_run tr' _ w'' Hs' Hd' Hr Hns' Hrun') as (_ & _ & ?).
Qed.

Lemma callback_failure_witness :
  let tr := [Call (Start 0); Fire 0%nat; RunReady (Behaviour [] Awaits); Tick 2] in
  let w' := exec (tr ++ [Resume 1%nat Exception]) init_world in
  task_state w' 1%nat = Some Failed /\
  timer_handle (timer w') = None /\
  has_live_task w' = false /\
  invocations (exec [Tick 9; Call (Start 1)] w') = invocations w'.
Proof.
  intros tr w'.
  destruct (callback_failure tr (exec tr init_world) (Resume 1%nat Exception) 1%nat w')
    as (_ & Ht & H).
  - vm_compute; reflexivity.
  - vm_compute. tauto.
  - vm_compute; reflexivity.
  - destruct H as (Hh & _ & Hl & Hq).
    + vm_compute. tauto.
    + vm_compute. tauto.
    + vm_compute; reflexivity.
    + split; [exact Ht|]. split; [exact Hh|]. split; [exact Hl|].
      apply (Hq [Tick 9; Call (Start 1)]).
      * vm_compute. tauto.
      * vm_compute; reflexivity.
Defined.

(** * Further properties of the timer and the facade *)

Ltac open_timed := unfold not_before, later_invocations, api_no_start in *.

Ltac nb_solve :=
  intros; simpl in *; split_keys; simpl in *; simplify_eq; rew_lookups; case_lookups;
  try done;
  try first [timeout 10 sfirstorder | timeout 20 hauto | timeout 20 (exfalso; hauto)].

Lemma nb_tick T t w :
  not_before T w -> Qle_bool (now w) t = true -> not_before T (set_now t w).
Proof.
  intros [H|H] Ht; [left|right; exact H].
  apply Qle_bool_iff in Ht. simpl. lra.
Qed.

Lemma nb_api T a w w' :
  slot_inv w -> not_before T w -> api_no_start a w -> do_api a w = Some w' ->
  not_before T w'.
Proof.
  intros Hs [H|[Hl Hw]] Hok Ha; open_timed; destruct a; try done; break_world w.
  all: try (by left).
  all: right; split; nb_solve.
Qed.

Lemma nb_fire T h e w :
  slot_inv w -> not_before T w -> scheduled w !! h = Some e -> cancelled e = false ->
  Qle_bool (when e) (now w) = true ->
  not_before T (run_thunk (target e) (set_scheduled (delete h (scheduled w)) w)).
Proof.
  intros Hs [H|[Hl Hw]] Hh Hc Hle; apply Qle_bool_iff in Hle.
  - left. by destruct e as [t x []]; break_world w.
  - destruct e as [t x [f args|f args|]].
    3: { left. specialize (Hw h _ Hh eq_refl Hc). simpl in *.
         assert (T <= now w) by lra. by break_world w. }
    all: right; break_world w; split; nb_solve.
Qed.

Lemma nb_call T th q w :
  slot_inv w -> not_before T w -> ready w = RCall th :: q ->
  not_before T (run_thunk th (set_ready q w)).
Proof.
  intros Hs [H|[Hl Hw]] Hq.
  - left. destruct th; break_world w; done.
  - destruct th; break_world w; queue; try congruence.
    all: right; split; nb_solve.
Qed.

Lemma nb_coro T c f args q w :
  not_before T w -> objs w !! c = Some (Awaitable_ (UserCoro f args) Pending) ->
  not_before T (Aio.set_state c Finished (emit (Executed f args) (set_ready q w))).
Proof.
  intros [H|[Hl Hw]] Hc; [by left|].
  right. break_world w. split; nb_solve.
Qed.

Lemma nb_live T c a w :
  not_before T w -> objs w !! c = Some a -> is_live a = true -> T <= now w.
Proof.
  intros [H|[Hl Hw]] Hc Ha; [done|]. rewrite (Hl _ _ Hc) in Ha. done.
Qed.

Lemma nb_abort T c q w :
  not_before T w -> objs w !! c = Some (Awaitable_ CallWrapper Pending) ->
  not_before T (Aio.set_state c Finished (set_ready q w)).
Proof. intros H Hc. left. by apply (nb_live T c _ w H Hc). Qed.

Lemma nb_invoke T c q w :
  not_before T w -> objs w !! c = Some (Awaitable_ CallWrapper Pending) ->
  not_before T (CallWrapper.invoke c (set_ready q w)).
Proof. intros H Hc. left. by apply (nb_live T c _ w H Hc). Qed.

Lemma nb_finish T c r w :
  not_before T w -> objs w !! c = Some (Awaitable_ CallWrapper Active) ->
  not_before T (CallWrapper.finish c r w).
Proof.
  intros H Hc. left. pose proof (nb_live T c _ w H Hc eq_refl).
  destruct r; break_world w; done.
Qed.

(** Only the first step of an invocation task adds an invocation. *)
Lemma invocations_api a w w' : do_api a w = Some w' -> invocations w' = invocations w.
Proof. intros H. destruct a; break_world w; logs; done. Qed.

Lemma invocations_acts l : forall w w',
  run_acts l w = Some w' -> invocations w' = invocations w.
Proof.
  induction l as [|a l IH]; simpl; intros w w' H; [by simplify_eq|].
  destruct (do_api a w) as [w1|] eqn:E; [|done].
  rewrite (IH _ _ H). by eapply invocations_api.
Qed.

Lemma invocations_thunk th w : invocations (run_thunk th w) = invocations w.
Proof. destruct th; break_world w; logs; done. Qed.

Lemma invocations_finish c r w : invocations (CallWrapper.finish c r w) = invocations w.
Proof. destruct r; break_world w; logs; done. Qed.

Lemma later_same l0 T w w' :
  invocations w' = invocations w -> later_invocations l0 T w -> later_invocations l0 T w'.
Proof. intros Heq (l & Hl & Hall). exists l. by rewrite Heq. Qed.

Lemma timed_run l0 T tr w w' :
  timed_inv l0 T w -> no_start tr w -> run tr w = Some w' -> timed_inv l0 T w'.
Proof.
  revert tr w w'. unfold no_start.
  apply (run_preserve (timed_inv l0 T) api_no_start any_end); unfold timed_inv.
  - intros w [H _]. by apply slot_fresh.
  - intros t w (? & ? & ?) ?. split_and!; [by apply slot_tick|by apply nb_tick|done].
  - intros a w w' (? & ? & ?) ? ?.
    split_and!; [by eapply slot_api|by eapply nb_api|].
    eapply later_same; [|done]. by eapply invocations_api.
  - intros h e w (? & ? & ?) ? ? ?.
    split_and!; [by apply slot_fire|by apply nb_fire|].
    eapply later_same; [|done]. by rewrite invocations_thunk.
  - intros th q w (? & ? & ?) ?.
    split_and!; [by apply slot_call|by apply nb_call|].
    eapply later_same; [|done]. by rewrite invocations_thunk.
  - intros c f args q w (? & ? & ?) ? ?.
    split_and!; [by apply slot_coro|by apply nb_coro|].
    eapply later_same; [|done]. unfold invocations. simpl. rewrite omap_app. simpl.
    by rewrite app_nil_r.
  - intros c q w (? & ? & ?) ? ? ?.
    split_and!; [by apply slot_abort|by apply nb_abort|done].
  - intros c q w (? & Hnb & (l & Hl & Hall)) ? Hc ?.
    split_and!; [by apply slot_invoke|by apply nb_invoke|].
    exists (l ++ [now w]). split.
    + unfold invocations in *. simpl. rewrite omap_app, Hl. simpl. by rewrite app_assoc.
    + apply Forall_app. split; [done|]. apply Forall_singleton.
      by apply (nb_live T c _ w Hnb Hc).
  - intros c r w (? & ? & ?) ? ?.
    split_and!; [by apply slot_finish|by apply nb_finish|].
    eapply later_same; [|done]. by rewrite invocations_finish.
Qed.

Lemma timed_after_return c ret w :
  owned_inv w -> objs w !! c = Some (Awaitable_ CallWrapper Active) ->
  timed_inv (invocations w) ret (CallWrapper.finish c (Value ret) w).
Proof.
  intros [Hs (Hown & Hidle & Hone)] Hc.
  pose proof (Hidle c _ Hc eq_refl) as Hnone.
  split_and!.
  - by apply slot_finish.
  - right. split.
    + intros c' a. unfold CallWrapper.finish, CallWrapper.tail.
      destruct (running (timer w)); simpl.
      all: destruct (decide (c = c')) as [<-|Hne];
        [rewrite lookup_alter_eq, Hc; by intros [= <-]
        |rewrite lookup_alter_ne by done; intros Hc';
         destruct (is_live a) eqn:E; [|done];
         by specialize (Hone _ _ _ _ Hc eq_refl Hc' E)].
    + intros h e. unfold CallWrapper.finish, CallWrapper.tail.
      destruct (running (timer w)); simpl.
      * destruct (decide (next_id w = h)) as [<-|Hne].
        -- rewrite lookup_insert_eq. intros [= <-] _ _. simpl. lra.
        -- rewrite lookup_insert_ne by done. intros He Ht Hcn.
           specialize (Hown _ _ He Ht Hcn). congruence.
      * intros He Ht Hcn. specialize (Hown _ _ He Ht Hcn). congruence.
  - exists []. split; [|done]. by rewrite invocations_finish, app_nil_r.
Qed.

Lemma timed_after_start delay w :
  owned_inv w -> running (timer w) = false -> has_live_task w = false ->
  timed_inv (invocations w) (now w + delay) (FlexTimer.start delay w).
Proof.
  intros [Hs (Hown & Hidle & Hone)] Hr Hl.
  pose proof Hs as (_ & _ & Hnone & _). specialize (Hnone Hr).
  rewrite has_live_task_false in Hl.
  split_and!.
  - by apply (slot_api (Start delay) w).
  - right. unfold FlexTimer.start. rewrite Hr. simpl. split; [done|].
    intros h e. destruct (decide (next_id w = h)) as [<-|Hne].
    + rewrite lookup_insert_eq. intros [= <-] _ _. simpl. lra.
    + rewrite lookup_insert_ne by done. intros He Ht Hcn.
      specialize (Hown _ _ He Ht Hcn). congruence.
  - exists []. split; [|done]. rewrite app_nil_r.
    unfold FlexTimer.start. by rewrite Hr.
Qed.

(** X4. After the callback has returned [ret], it is not invoked again
    before the loop time reaches [ret], as long as nobody calls
    start() and no start() has raced with an invocation task. *)
Theorem never_early_after_return tr0 w e c ret w1 tr w' :
  run tr0 init_world = Some w ->
  calm tr0 init_world ->
  calm [e] w ->
  returns e c ret w ->
  step e w = Some w1 ->
  no_start tr w1 ->
  run tr w1 = Some w' ->
  exists l, invocations w' = invocations w1 ++ l /\ Forall (fun t => ret <= t) l.
Proof.
  intros Hrun Hcalm Hce Hret Hstep Hns Hrun'.
  assert (owned_inv w) as Hown.
  { apply (owned_run tr0 init_world); [|done..].
    split; [apply slot_init | apply calm_init]. }
  assert (exists w0, w1 = CallWrapper.finish c (Value ret) w0 /\ owned_inv w0 /\
            objs w0 !! c = Some (Awaitable_ CallWrapper Active))
    as (w0 & -> & Hown0 & Hc0).
  { destruct e as [| | |b|c' r]; try done; simpl in Hret.
    - destruct Hret as ([q Hq] & Hp & Hr & Hres).
      unfold calm in Hce. simpl in Hce, Hstep. rewrite Hq in Hce, Hstep.
      destruct Hce as [Hce _]. destruct (Hce Hp Hr) as [Hacts _].
      apply pending_task_lookup in Hp.
      unfold task_step in Hstep. simpl in Hstep. rewrite Hp in Hstep.
      unfold CallWrapper.enter in Hstep. simpl in Hstep. rewrite Hr in Hstep.
      simpl in Hstep. rewrite Hres in Hstep.
      destruct (run_acts (acts b) _) as [w2|] eqn:Ea; [|done]. simplify_eq.
      destruct Hown as [Hs Hc].
      assert (owned_inv (CallWrapper.invoke c (set_ready q w))) as Hown1.
      { split; [by apply slot_invoke | by apply calm_invoke]. }
      exists w2. split_and!; [done|by eapply owned_acts|].
      eapply run_acts_stable; [done|by apply slot_fresh, Hown1|].
      simpl. by rewrite lookup_alter_eq, Hp.
    - destruct Hret as (-> & -> & Hin). apply in_callback_lookup in Hin.
      simpl in Hstep. rewrite Hin in Hstep. simplify_eq. by exists w. }
  pose proof (timed_after_return c ret w0 Hown0 Hc0) as Ht.
  destruct (timed_run _ _ _ _ _ Ht Hns Hrun') as (_ & _ & (l & Hl & Hall)).
  exists l. split; [|done]. by rewrite invocations_finish.
Qed.

Lemma never_early_after_return_witness :
  let tr0 := [Call (Start 0); Fire 0%nat] in
  let e := RunReady (Behaviour [] (Done (Value 5))) in
  let tr := [Tick 5; Fire 2%nat; RunReady (Behaviour [] (Done (Value 3)));
             Fire 4%nat; RunReady (Behaviour [] Awaits)] in
  exists l, invocations (exec (tr0 ++ e :: tr) init_world)
            = invocations (exec (tr0 ++ [e]) init_world) ++ l /\
            Forall (fun t => 5 <= t) l.
Proof.
  intros tr0 e tr.
  apply (never_early_after_return tr0 (exec tr0 init_world) e 1%nat 5
           (exec (tr0 ++ [e]) init_world) tr).
  - vm_compute; reflexivity.
  - vm_compute. tauto.
  - vm_compute. tauto.
  - vm_compute. split_and!; eauto.
  - vm_compute; reflexivity.
  - vm_compute. tauto.
  - vm_compute; reflexivity.
Defined.

(** X3. After start(delay) on a stopped timer with no invocation task
    left over, the callback is not invoked before the loop time
    reaches now + delay, as long as nobody calls start() again. *)
Theorem never_early_after_start tr0 w delay tr w' :
  run tr0 init_world = Some w ->
  calm tr0 init_world ->
  running (timer w) = false ->
  has_live_task w = false ->
  no_start tr (FlexTimer.start delay w) ->
  run tr (FlexTimer.start delay w) = Some w' ->
  exists l, invocations w' = invocations w ++ l /\
            Forall (fun t => now w + delay <= t) l.
Proof.
  intros Hrun Hcalm Hr Hl Hns Hrun'.
  assert (owned_inv w) as Hown.
  { apply (owned_run tr0 init_world); [|done..].
    split; [apply slot_init | apply calm_init]. }
  pose proof (timed_after_start delay w Hown Hr Hl) as Ht.
  by destruct (timed_run _ _ _ _ _ Ht Hns Hrun') as (_ & _ & ?).
Qed.

Lemma never_early_after_start_witness :
  let tr := [Tick 3; Fire 0%nat; RunReady (Behaviour [] (Done (Value 1)));
             Fire 2%nat; RunReady (Behaviour [] Awaits)] in
  exists l, invocations (exec tr (FlexTimer.start 2 init_world))
            = invocations init_world ++ l /\
            Forall (fun t => now init_world + 2 <= t) l.
Proof.
  intros tr.
  apply (never_early_after_start [] init_world 2 tr).
  - reflexivity.
  - vm_compute. tauto.
  - reflexivity.
  - reflexivity.
  - vm_compute. tauto.
  - vm_compute; reflexivity.
Defined.


Lemma flag_api b a w w' :
  running (timer w) = b -> api_no_start_stop a w -> do_api a w = Some w' ->
  running (timer w') = b.
Proof.
  intros H [Hs Hp] Ha. destruct a; try done; break_world w; done.
Qed.

Lemma flag_thunk b th w : running (timer w) = b -> running (timer (run_thunk th w)) = b.
Proof. intros H. destruct th; break_world w; done. Qed.

Lemma flag_finish b c r w :
  running (timer w) = b -> running (timer (CallWrapper.finish c r w)) = b.
Proof. intros H. destruct r; break_world w; done. Qed.

(** X2. is_running() changes through start() and stop() only: the
    dispatch, the invocation task, a callback that returns, awaits or
    raises, and the facade all leave it as it is. *)
Theorem running_only_by_start_stop tr0 w tr w' :
  run tr0 init_world = Some w ->
  hands_off tr w ->
  run tr w = Some w' ->
  FlexTimer.is_running w' = FlexTimer.is_running w.
Proof.
  intros Hreach Hok Hrun. unfold FlexTimer.is_running.
  pose proof (slot_run _ _ _ slot_init Hreach) as Hs.
  assert (flag_is (running (timer w)) w) as HP by done.
  cut (flag_is (running (timer w)) w'); [by intros [_ ?]|].
  revert HP Hok Hrun. unfold hands_off.
  generalize (running (timer w)) as b. intros b. clear Hreach Hs. revert tr w w'.
  apply (run_preserve (flag_is b) api_no_start_stop any_end); unfold flag_is.
  - intros w [H _]. by apply slot_fresh.
  - intros t w [? ?] _. split; [by apply slot_tick | done].
  - intros a w w' [? ?] ? ?. split; [by eapply slot_api | by eapply flag_api].
  - intros h e w [? ?] ? ? _. split; [by apply slot_fire | by apply flag_thunk].
  - intros th q w [? ?] ?. split; [by apply slot_call | by apply flag_thunk].
  - intros c f args q w [? ?] ? ?. split; [by apply slot_coro | done].
  - intros c q w [? ?] ? ? ?. split; [by apply slot_abort | done].
  - intros c q w [? ?] ? ? ?. split; [by apply slot_invoke | done].
  - intros c r w [? ?] ? ?. split; [by apply slot_finish | by apply flag_finish].
Qed.

Lemma running_only_by_start_stop_witness :
  let tr0 := [Call (Start 0)] in
  let tr := [Fire 0%nat; RunReady (Behaviour [] (Done Exception)); Tick 8] in
  FlexTimer.is_running (exec (tr0 ++ tr) init_world)
  = FlexTimer.is_running (exec tr0 init_world).
Proof.
  intros tr0 tr.
  apply (running_only_by_start_stop tr0 (exec tr0 init_world) tr).
  - vm_compute; reflexivity.
  - vm_compute. tauto.
  - vm_compute; reflexivity.
Defined.

(** X1. After stop() the callback is not invoked until somebody calls
    start(): whatever handles and tasks of the timer are still with the
    loop do nothing, and the timer stays Stopped with no handle. *)
Theorem stop_silences tr0 w tr w' :
  run tr0 init_world = Some w ->
  no_start tr (FlexTimer.stop w) ->
  run tr (FlexTimer.stop w) = Some w' ->
  invocations w' = invocations w /\
  FlexTimer.is_running w' = false /\
  timer_handle (timer w') = None.
Proof.
  intros Hreach Hns Hrun.
  pose proof (slot_run _ _ _ slot_init Hreach) as Hs.
  assert (slot_inv (FlexTimer.stop w)) as Hs' by (by apply (slot_api Stop w)).
  destruct (stop_stopped w) as [Hst Hinv].
  destruct (stopped_run _ _ _ Hs' Hst Hns Hrun) as [Hr1 Hi1].
  pose proof (slot_run _ _ _ Hs' Hrun) as (_ & _ & Hnone & _).
  split_and!; [congruence|done|auto].
Qed.

Lemma stop_silences_witness :
  let tr0 := [Call (Start 5); Tick 1] in
  let tr := [Tick 10; Call (Register (PyFunc 1 false false) []);
             RunReady (Behaviour [] Awaits)] in
  invocations (exec tr (FlexTimer.stop (exec tr0 init_world))) = [] /\
  FlexTimer.is_running (exec tr (FlexTimer.stop (exec tr0 init_world))) = false /\
  timer_handle (timer (exec tr (FlexTimer.stop (exec tr0 init_world)))) = None.
Proof.
  intros tr0 tr.
  apply (stop_silences tr0 (exec tr0 init_world) tr).
  - vm_compute; reflexivity.
  - vm_compute. tauto.
  - vm_compute; reflexivity.
Defined.

(** X7. As long as no start() has raced with an invocation task,
    stop() leaves no dispatch of the timer with the loop. *)
Theorem stop_leaves_no_handle tr w h :
  run tr init_world = Some w ->
  calm tr init_world ->
  outstanding (FlexTimer.stop w) h = false.
Proof.
  intros Hrun Hcalm.
  assert (owned_inv w) as [Hs Hc].
  { apply (owned_run tr init_world); [|done..].
    split; [apply slot_init | apply calm_init]. }
  assert (slot_inv (FlexTimer.stop w)) as (_ & _ & Hnone & _)
    by (by apply (slot_api Stop w)).
  assert (calm_inv (FlexTimer.stop w)) as (Hown & _)
    by (by apply (calm_api Stop w)).
  destruct (stop_stopped w) as [Hst _]. specialize (Hnone Hst).
  destruct (outstanding _ h) eqn:E; [|done].
  apply outstanding_lookup in E as (e & He & Ht & Hcn).
  specialize (Hown _ _ He Ht Hcn). congruence.
Qed.

Lemma stop_leaves_no_handle_witness :
  outstanding
    (FlexTimer.stop
       (exec [Call (Start 0); Fire 0%nat; RunReady (Behaviour [] (Done (Value 9)))]
          init_world)) 2%nat = false.
Proof.
  apply (stop_leaves_no_handle
           [Call (Start 0); Fire 0%nat; RunReady (Behaviour [] (Done (Value 9)))]).
  - vm_compute; reflexivity.
  - vm_compute. tauto.
Defined.

(** X8. As long as no start() has raced with an invocation task, the
    timer has one invocation task at most, queued or inside the
    callback: two invocations of the callback never overlap. *)
Theorem no_overlapping_invocations tr w c1 c2 :
  run tr init_world = Some w ->
  calm tr init_world ->
  pending_task w c1 = true \/ in_callback w c1 = true ->
  pending_task w c2 = true \/ in_callback w c2 = true ->
  c1 = c2.
Proof.
  intros Hrun Hcalm H1 H2.
  assert (owned_inv w) as [_ (_ & _ & Hone)].
  { apply (owned_run tr init_world); [|done..].
    split; [apply slot_init | apply calm_init]. }
  assert (forall c, pending_task w c = true \/ in_callback w c = true ->
            exists a, objs w !! c = Some a /\ is_live a = true) as Hlive.
  { intros c [H%pending_task_lookup|H%in_callback_lookup]; eauto. }
  destruct (Hlive _ H1) as (a1 & ? & ?). destruct (Hlive _ H2) as (a2 & ? & ?).
  eauto.
Qed.

Example race_overlapping_invocations :
  let w := exec [Call (Start 0); Fire 0%nat; RunReady (Behaviour [Stop; Start 0] Awaits);
                 Fire 2%nat; RunReady (Behaviour [] Awaits)] init_world in
  in_callback w 1%nat = true /\ in_callback w 3%nat = true.
Proof. split; vm_compute; reflexivity. Qed.

Lemma no_overlapping_invocations_witness : 1%nat = 1%nat.
Proof.
  apply (no_overlapping_invocations [Call (Start 0); Fire 0%nat]
           (exec [Call (Start 0); Fire 0%nat] init_world)).
  - vm_compute; reflexivity.
  - vm_compute. tauto.
  - left. vm_compute; reflexivity.
  - left. vm_compute; reflexivity.
Defined.

Lemma Qle_bool_true (a b : Q) : a <= b -> Qle_bool a b = true.
Proof. apply Qle_bool_iff. Qed.

(** X5. start(delay) leads to an invocation: once the loop time has
    reached now + delay the dispatch can run, and the task it queues
    invokes the callback with the loop time of that moment. *)
Theorem started_timer_fires (delay t : Q) (o : outcome) (w : world) :
  running (timer w) = false ->
  ready w = [] ->
  now w <= t ->
  now w + delay <= t ->
  exists w',
    run [Tick t; Fire (next_id w); RunReady (Behaviour [] o)] (FlexTimer.start delay w)
      = Some w' /\
    invocations w' = invocations w ++ [t].
Proof.
  intros Hr Hq Ht Hd.
  unfold FlexTimer.start. rewrite Hr. simpl.
  rewrite (Qle_bool_true _ _ Ht). simpl.
  rewrite lookup_insert_eq. simpl.
  rewrite (Qle_bool_true _ _ Hd). simpl.
  rewrite Hq. simpl. unfold task_step. simpl.
  rewrite lookup_alter_eq, lookup_insert_eq. simpl.
  unfold CallWrapper.enter. simpl.
  destruct o as [[ret|]|]; simpl; eexists; (split; [reflexivity|]).
  all: unfold invocations, CallWrapper.tail; simpl; rewrite omap_app; simpl; try done.
  by rewrite omap_app, app_nil_r.
Qed.

Lemma started_timer_fires_witness :
  exists w',
    run [Tick 2; Fire 0%nat; RunReady (Behaviour [] (Done (Value 3)))]
      (FlexTimer.start 2 init_world) = Some w' /\
    invocations w' = invocations init_world ++ [2].
Proof.
  apply (started_timer_fires 2 2 (Done (Value 3)) init_world).
  - reflexivity.
  - reflexivity.
  - unfold Qle; simpl; lia.
  - unfold Qle; simpl; lia.
Defined.

(** X6. A callback that returns [ret] while the timer is Running leads
    to the next invocation: once the loop time has reached [ret] the
    new dispatch can run, and its task invokes the callback with the
    loop time of that moment. *)
Theorem rearmed_timer_fires (c : nat) (ret t : Q) (o : outcome) (w : world) :
  running (timer w) = true ->
  ready w = [] ->
  now w <= t ->
  ret <= t ->
  exists w',
    run [Tick t; Fire (next_id w); RunReady (Behaviour [] o)]
      (CallWrapper.finish c (Value ret) w) = Some w' /\
    invocations w' = invocations w ++ [t].
Proof.
  intros Hr Hq Ht Hd.
  unfold CallWrapper.finish, CallWrapper.tail. rewrite Hr. simpl.
  rewrite (Qle_bool_true _ _ Ht). simpl.
  rewrite lookup_insert_eq. simpl.
  rewrite (Qle_bool_true _ _ Hd). simpl.
  rewrite Hq. simpl. unfold task_step. simpl.
  rewrite lookup_alter_eq, lookup_insert_eq. simpl.
  unfold CallWrapper.enter. simpl. rewrite Hr. simpl.
  destruct o as [[ret'|]|]; simpl; eexists; (split; [reflexivity|]).
  all: unfold invocations, CallWrapper.tail; simpl; rewrite ?Hr; simpl;
    rewrite omap_app; simpl; try done.
  by rewrite omap_app, app_nil_r.
Qed.

Lemma rearmed_timer_fires_witness :
  let w := exec [Call (Start 0); Fire 0%nat; RunReady (Behaviour [] Awaits)] init_world in
  exists w',
    run [Tick 4; Fire 2%nat; RunReady (Behaviour [] Awaits)]
      (CallWrapper.finish 1%nat (Value 4) w) = Some w' /\
    invocations w' = invocations w ++ [4].
Proof.
  intros w.
  apply (rearmed_timer_fires 1%nat 4 4 Awaits w).
  - vm_compute; reflexivity.
  - vm_compute; reflexivity.
  - vm_compute. discriminate.
  - vm_compute. discriminate.
Defined.

(** X9. stop() followed by start(delay) re-arms the timer: as long as
    no start() has raced with an invocation task, the loop then holds
    exactly one dispatch of the timer, the new one at now + delay. *)
Theorem restart_reschedules tr w delay :
  run tr init_world = Some w ->
  calm tr init_world ->
  let w2 := FlexTimer.start delay (FlexTimer.stop w) in
  FlexTimer.is_running w2 = true /\
  timer_handle (timer w2) = Some (next_id w) /\
  scheduled w2 !! next_id w = Some (TimerHandle (now w + delay) false ScheduleTask) /\
  (forall h, outstanding w2 h = true -> h = next_id w).
Proof.
  intros Hrun Hcalm w2.
  assert (forall h, outstanding (FlexTimer.stop w) h = false) as Hnone
    by (intros h; by eapply stop_leaves_no_handle).
  destruct (stop_stopped w) as [Hst _].
  assert (next_id (FlexTimer.stop w) = next_id w /\ now (FlexTimer.stop w) = now w)
    as [Hn Hnow].
  { unfold FlexTimer.stop. by destruct w as [n i s r o l [[] [h|]]]. }
  subst w2. unfold FlexTimer.is_running, FlexTimer.start. rewrite Hst. simpl.
  rewrite Hn, Hnow. split_and!; try done.
  - by rewrite lookup_insert_eq.
  - intros h Ho. destruct (decide (next_id w = h)) as [|Hne]; [done|].
    specialize (Hnone h). unfold outstanding in *. simpl in Ho.
    rewrite lookup_insert_ne in Ho by done. congruence.
Qed.

Lemma restart_reschedules_witness :
  let w := exec [Call (Start 9); Tick 1] init_world in
  timer_handle (timer (FlexTimer.start 2 (FlexTimer.stop w))) = Some 1%nat /\
  scheduled (FlexTimer.start 2 (FlexTimer.stop w)) !! 1%nat
    = Some (TimerHandle (now w + 2) false ScheduleTask).
Proof.
  intros w.
  destruct (restart_reschedules [Call (Start 9); Tick 1] w 2) as (_ & Hh & Hs & _).
  - vm_compute; reflexivity.
  - vm_compute. tauto.
  - split; [exact Hh | exact Hs].
Defined.

(** X10. A timer that was just made is not running, and its callback is
    not invoked before somebody calls start(). *)
Theorem new_timer_idle tr w :
  no_start tr init_world ->
  run tr init_world = Some w ->
  FlexTimer.is_running w = false /\ invocations w = [].
Proof.
  intros Hns Hrun.
  by destruct (stopped_run tr init_world w slot_init eq_refl Hns Hrun).
Qed.

Lemma new_timer_idle_witness :
  let tr := [Call Stop; Call (Register (PyFunc 1 true false) []);
             RunReady (Behaviour [] Awaits); Tick 4] in
  FlexTimer.is_running (exec tr init_world) = false /\
  invocations (exec tr init_world) = [].
Proof.
  intros tr. apply (new_timer_idle tr).
  - vm_compute. tauto.
  - vm_compute; reflexivity.
Defined.



Ltac tame_solve :=
  intros; simpl in *; split_keys; simpl in *; simplify_eq; rew_lookups; case_lookups;
  try done;
  try first [timeout 10 sfirstorder | timeout 20 hauto | timeout 20 (exfalso; hauto)].

Ltac tame_queue :=
  repeat match goal with
  | H : Forall _ (_ :: _) |- _ => apply Forall_cons in H as [? ?]
  | |- Forall _ (_ ++ [_]) => apply Forall_app; split; [|apply Forall_singleton]
  end; try done.

Lemma tame_fn_plain f :
  tame_fn f = true -> is_coroutine_function f = false ->
  is_coroutine_function f = false /\ returns_awaitable f = false.
Proof. unfold tame_fn. destruct (is_coroutine_function f), (returns_awaitable f); done. Qed.

Lemma awaited_init : awaited_inv init_world.
Proof.
  split_and!; [by intros c a; simpl; rewrite lookup_empty..|by apply Forall_nil].
Qed.

Lemma awaited_tick t w : awaited_inv w -> awaited_inv (set_now t w).
Proof. intros H. exact H. Qed.

Ltac tame_fns :=
  unfold api_tame, tame_fn in *;
  repeat match goal with
  | H : is_coroutine_function ?f = _, H' : context [ is_coroutine_function ?f ] |- _ =>
      rewrite H in H'; simpl in H'
  | H : negb _ = true |- _ => apply negb_true_iff in H
  end.

Lemma awaited_api a w w' :
  slot_inv w -> awaited_inv w -> api_tame a w -> do_api a w = Some w' -> awaited_inv w'.
Proof.
  intros Hs (Ho & Hsch & Hq) Hok Ha. unfold awaited_inv.
  destruct a; break_world w; tame_fns.
  all: split_and!; tame_queue; tame_solve.
Qed.

Lemma awaited_thunk th w :
  slot_inv w -> awaited_inv w -> tame_thunk th -> awaited_inv (run_thunk th w).
Proof.
  intros Hs (Ho & Hsch & Hq) Hth. unfold awaited_inv.
  destruct th as [f args|f args|]; simpl in Hth; destruct_and?; break_world w.
  all: split_and!; tame_queue; tame_solve.
Qed.

Lemma awaited_fire h e w :
  slot_inv w -> awaited_inv w -> scheduled w !! h = Some e ->
  awaited_inv (run_thunk (target e) (set_scheduled (delete h (scheduled w)) w)).
Proof.
  intros Hs (Ho & Hsch & Hq) Hh. unfold awaited_inv.
  pose proof (Hsch _ _ Hh) as Hth.
  destruct e as [t x [f args|f args|]]; simpl in Hth; destruct_and?; break_world w.
  all: split_and!; tame_queue; tame_solve.
Qed.

Lemma awaited_call th q w :
  slot_inv w -> awaited_inv w -> ready w = RCall th :: q ->
  awaited_inv (run_thunk th (set_ready q w)).
Proof.
  intros Hs (Ho & Hsch & Hq) Hr. unfold awaited_inv.
  rewrite Hr in Hq. apply Forall_cons in Hq as [Hth Hq]. simpl in Hth.
  destruct th as [f args|f args|]; simpl in Hth; destruct_and?; break_world w.
  all: split_and!; tame_queue; tame_solve.
Qed.

Lemma awaited_set_state c s q w :
  awaited_inv w -> ready w = RStep c :: q -> s <> Created ->
  awaited_inv (Aio.set_state c s (set_ready q w)).
Proof.
  intros (Ho & Hsch & Hq) Hr Hne. unfold awaited_inv.
  rewrite Hr in Hq. apply Forall_cons in Hq as [_ Hq].
  break_world w. split_and!; tame_queue; tame_solve.
Qed.

Lemma awaited_emit o w : awaited_inv w -> awaited_inv (emit o w).
Proof. intros H. exact H. Qed.

Lemma awaited_finish c r w :
  slot_inv w -> awaited_inv w -> awaited_inv (CallWrapper.finish c r w).
Proof.
  intros Hs (Ho & Hsch & Hq). unfold awaited_inv.
  destruct r; break_world w.
  all: split_and!; tame_queue; tame_solve.
Qed.

Lemma awaited_run tr w w' :
  slot_inv w -> awaited_inv w -> tame tr w -> run tr w = Some w' -> awaited_inv w'.
Proof.
  intros Hs Ha Hok Hrun.
  cut (slot_inv w' /\ awaited_inv w'); [by intros [_ ?]|].
  assert (slot_inv w /\ awaited_inv w) as HP by done.
  clear Hs Ha. revert tr w w' HP Hok Hrun. unfold tame.
  apply (run_preserve (fun w => slot_inv w /\ awaited_inv w) api_tame any_end).
  - intros w [H _]. by apply slot_fresh.
  - intros t w [? ?] _. split; [by apply slot_tick | by apply awaited_tick].
  - intros a w w' [? ?] ? ?. split; [by eapply slot_api | by eapply awaited_api].
  - intros h e w [? ?] ? ? _. split; [by apply slot_fire | by apply awaited_fire].
  - intros th q w [? ?] ?. split; [by apply slot_call | by apply awaited_call].
  - intros c f args q w [? ?] ? ?. split; [by apply slot_coro|].
    change (awaited_inv (emit (Executed f args)
              (Aio.set_state c Finished (set_ready q w)))).
    apply awaited_emit. by apply awaited_set_state.
  - intros c q w [? ?] ? ? ?. split; [by apply slot_abort | by apply awaited_set_state].
  - intros c q w [? ?] ? ? ?. split; [by apply slot_invoke|].
    change (awaited_inv (emit (Invoked (now w))
              (Aio.set_state c Active (set_ready q w)))).
    apply awaited_emit. by apply awaited_set_state.
  - intros c r w [? ?] ? ?. split; [by apply slot_finish | by apply awaited_finish].
Qed.

(** X14. As long as every plain function given to register_callback or
    delay_callback returns no awaitable, no awaitable is ever left
    un-awaited: every coroutine the facade or the timer builds is
    wrapped in a task in the step that builds it. *)
Theorem no_unawaited_coroutine tr w c :
  run tr init_world = Some w ->
  tame tr init_world ->
  unawaited w c = false.
Proof.
  intros Hrun Hok.
  destruct (awaited_run tr init_world w slot_init awaited_init Hok Hrun) as (Ho & _).
  unfold unawaited. destruct (objs w !! c) as [a|] eqn:E; [|done].
  specialize (Ho _ _ E). by destruct (state a).
Qed.

Lemma no_unawaited_coroutine_witness :
  let co := PyFunc 1 true false in
  let fn := PyFunc 2 false false in
  unawaited
    (exec [Call (Register co []); Call (Delay 1 co []); Call (Delay 2 fn []);
           Call (Cancel 2%nat); Tick 3; Fire 1%nat; Call (Start 0); Fire 4%nat]
       init_world) 0%nat = false.
Proof.
  intros co fn.
  apply (no_unawaited_coroutine
           [Call (Register co []); Call (Delay 1 co []); Call (Delay 2 fn []);
            Call (Cancel 2%nat); Tick 3; Fire 1%nat; Call (Start 0); Fire 4%nat]).
  - vm_compute; reflexivity.
  - vm_compute. tauto.
Defined.

(** X11. For a plain function, delay_callback runs nothing when it is
    called.  The handle it returns can run only once the delay has
    passed, running it runs the body of the function once, and once
    the handle is cancelled it never runs. *)
Theorem delayed_plain_callback tr0 w delay f args :
  run tr0 init_world = Some w ->
  is_coroutine_function f = false ->
  let h := fst (EventLoop.delay_callback delay f args w) in
  let w1 := snd (EventLoop.delay_callback delay f args w) in
  (log w1 = log w /\ ready w1 = ready w /\ objs w1 = objs w) /\
  scheduled w1 !! h = Some (TimerHandle (now w + delay) false (Partial f args)) /\
  (forall tr w2 w3, run tr w1 = Some w2 -> step (Fire h) w2 = Some w3 ->
     now w + delay <= now w2 /\
     log w3 = log w2 ++ [Executed f args] /\
     ready w3 = ready w2) /\
  (forall tr1 tr2 w2, run (tr1 ++ Call (Cancel h) :: tr2) w1 = Some w2 -> Fire h ∉ tr2).
Proof.
  intros Hreach Hco h w1.
  pose proof (slot_run _ _ _ slot_init Hreach) as Hs.
  pose proof (delay_callback_slot delay f args w Hs) as Hs1. fold w1 in Hs1.
  assert (h = next_id w /\
          w1 = snd (Aio.call_at (now w + delay) (Partial f args) w)) as [Hh Hw1].
  { unfold h, w1, EventLoop.delay_callback. by rewrite Hco. }
  assert (handle_for h (now w + delay) (Partial f args) w1) as Hfor.
  { rewrite Hh, Hw1. split; simpl; [lia|]. rewrite lookup_insert_eq. by intros e [= <-]. }
  split_and!.
  - by rewrite Hw1.
  - by rewrite Hw1.
  - by rewrite Hw1.
  - rewrite Hh, Hw1. simpl. by rewrite lookup_insert_eq.
  - intros tr w2 w3 Hrun Hfire.
    destruct (handle_for_run _ _ _ _ _ _ Hs1 Hfor Hrun) as [_ He].
    simpl in Hfire. destruct (scheduled w2 !! h) as [e|] eqn:Eh; [|done].
    destruct (He e eq_refl) as [Hwhen Htarget].
    destruct (cancelled e); [done|].
    destruct (Qle_bool (when e) (now w2)) eqn:Hle; [|done].
    apply Qle_bool_iff in Hle. rewrite Hwhen in Hle.
    rewrite Htarget in Hfire. simpl in Hfire. simplify_eq.
    split; [done|]. unfold Aio.call_fn. rewrite Hco. simpl.
    by destruct (returns_awaitable f).
  - intros tr1 tr2 w2 Hrun. rewrite run_app in Hrun.
    destruct (run tr1 w1) as [wa|] eqn:E1; [|done].
    pose proof (slot_run _ _ _ Hs1 E1) as Hsa.
    destruct (handle_for_run _ _ _ _ _ _ Hs1 Hfor E1) as [Hlt He].
    simpl in Hrun.
    destruct (scheduled wa !! h) as [e|] eqn:Eh.
    + destruct (He e eq_refl) as [_ Htarget]. rewrite Htarget in Hrun. simpl in Hrun.
      eapply (dead_handle_never_fires h tr2 (Aio.cancel h wa)); [| |done].
      * by apply (slot_api (Cancel h) wa);
          [| |simpl; rewrite Eh, Htarget].
      * split; [done|]. simpl. rewrite lookup_alter_eq, Eh. by intros e' [= <-].
    + eapply (dead_handle_never_fires h tr2 wa); [done| |done].
      split; [done|]. by rewrite Eh.
Qed.

Lemma delayed_plain_callback_witness :
  let fn := PyFunc 2 false false in
  let w1 := snd (EventLoop.delay_callback 5 fn [] init_world) in
  log w1 = log init_world /\
  scheduled w1 !! 0%nat = Some (TimerHandle (0 + 5) false (Partial fn [])) /\
  Fire 0%nat ∉ [Tick 9].
Proof.
  intros fn w1.
  destruct (delayed_plain_callback [] init_world 5 fn [] eq_refl eq_refl)
    as ((Hl & _) & Hs & _ & Hc).
  split; [exact Hl|]. split; [exact Hs|].
  apply (Hc [Tick 1] [Tick 9]
           (exec ([Tick 1] ++ Call (Cancel 0%nat) :: [Tick 9]) w1)).
  vm_compute; reflexivity.
Defined.

(** X12. What delay_callback schedules does run: once the loop time has
    reached now + delay the handle can run; for a plain function this
    runs its body, for a coroutine function it queues a task whose
    first step runs the body. *)
Theorem delayed_callback_runs (delay t : Q) f args (b : behaviour) (w : world) :
  now w <= t ->
  now w + delay <= t ->
  let h := fst (EventLoop.delay_callback delay f args w) in
  let w1 := snd (EventLoop.delay_callback delay f args w) in
  exists w',
    run [Tick t; Fire h] w1 = Some w' /\
    (is_coroutine_function f = false -> log w' = log w ++ [Executed f args]) /\
    (is_coroutine_function f = true ->
       log w' = log w /\
       ready w' = ready w ++ [RStep (S (next_id w))] /\
       (ready w = [] ->
          exists w'', step (RunReady b) w' = Some w'' /\
            log w'' = log w ++ [Executed f args])).
Proof.
  intros Ht Hd h w1. subst h w1.
  unfold EventLoop.delay_callback, Aio.call_later, Aio.call_at.
  destruct (is_coroutine_function f) eqn:Hco; simpl.
  all: rewrite (Qle_bool_true _ _ Ht); simpl.
  all: rewrite lookup_insert_eq; simpl.
  all: rewrite (Qle_bool_true _ _ Hd); simpl.
  all: eexists; split; [reflexivity|]; split; [|done || intros _]; try done.
  - unfold EventLoop._async_callback, Aio.call_fn. rewrite Hco. simpl.
    split_and!; try done. intros Hq. rewrite Hq. simpl.
    unfold task_step. simpl. rewrite lookup_alter_eq, lookup_insert_eq. simpl.
    eexists. split; [reflexivity|]. done.
  - intros _. unfold Aio.call_fn. rewrite Hco. simpl.
    by destruct (returns_awaitable f).
Qed.

Lemma delayed_callback_runs_witness :
  let co := PyFunc 1 true false in
  exists w',
    run [Tick 7; Fire 0%nat] (snd (EventLoop.delay_callback 5 co [] init_world))
      = Some w' /\
    ready w' = [RStep 1%nat].
Proof.
  intros co.
  destruct (delayed_callback_runs 5 7 co [] (Behaviour [] Awaits) init_world)
    as (w' & Hrun & _ & H).
  - unfold Qle; simpl; lia.
  - unfold Qle; simpl; lia.
  - exists w'. split; [exact Hrun|]. by destruct (H eq_refl) as (_ & Hq & _).
Defined.

(** X13. What register_callback queues does run: with nothing queued
    before it, the next step of the loop runs the body of the
    function, plain or coroutine function alike, and leaves the queue
    empty. *)
Theorem registered_callback_runs f args (b : behaviour) (w : world) :
  ready w = [] ->
  exists w',
    step (RunReady b) (snd (EventLoop.register_callback f args w)) = Some w' /\
    log w' = log w ++ [Executed f args] /\
    ready w' = [].
Proof.
  intros Hq. unfold EventLoop.register_callback, Aio.call_fn.
  destruct (is_coroutine_function f) eqn:Hco; simpl; rewrite Hq; simpl.
  - unfold task_step. simpl. rewrite lookup_alter_eq, lookup_insert_eq. simpl.
    eexists. split; [reflexivity|]. done.
  - unfold Aio.call_fn. rewrite Hco.
    destruct (returns_awaitable f); simpl; eexists; (split; [reflexivity|]); done.
Qed.

Lemma registered_callback_runs_witness :
  exists w',
    step (RunReady (Behaviour [] Awaits))
      (snd (EventLoop.register_callback (PyFunc 1 true false) [4%nat] init_world))
      = Some w' /\
    log w' = log init_world ++ [Executed (PyFunc 1 true false) [4%nat]] /\
    ready w' = [].
Proof.
  apply (registered_callback_runs (PyFunc 1 true false) [4%nat]
           (Behaviour [] Awaits) init_world).
  reflexivity.
Defined.
